(** * quiver-arrow (Qpid Proton C++): the event handler of the benchmark driver

    A shallow embedding of [src/impls/quiver-arrow-qpid-proton-cpp.cpp].
    The [handler] struct is a record, its callbacks are computations in a
    small state-and-error monad over the handler, standard output, the
    requests queued into the protocol engine and the wall clock.  C++ [int]
    arithmetic is written on [Z] with the 32-bit wrap-around spelled out. *)

From stdpp Require Import base strings list gmap pretty.
From Stdlib Require Import ZArith Lia Ascii.

Local Open Scope Z_scope.

(** ** Machine integers *)

Definition INT_MAX : Z := 2147483647.
Definition INT_MIN : Z := -2147483648.

Definition int_range (z : Z) : Prop := INT_MIN ≤ z ≤ INT_MAX.

(** Two's complement wrap-around of a 32-bit [int]. *)
Definition wrap_int (z : Z) : Z := (z + 2 ^ 31) `mod` 2 ^ 32 - 2 ^ 31.

(** [x + 1] and [x++] on an [int]. *)
Definition int_succ (x : Z) : Z := wrap_int (x + 1).

(** [std::to_string] on an integer, and [operator<<] on [int64_t]:
    the decimal rendering, with a leading minus sign when negative. *)
Definition to_string (z : Z) : string := pretty z.

Definition newline : string := String (Ascii.ascii_of_nat 10) EmptyString.

(** ** The protocol engine, as the handler sees it *)

Module proton.

(** Handles are references to objects owned by the engine. *)
Inductive connection := Connection (n : nat).
Inductive listener := Listener (n : nat).

#[global] Instance connection_eq_dec : EqDecision connection.
Proof. solve_decision. Defined.
#[global] Instance listener_eq_dec : EqDecision listener.
Proof. solve_decision. Defined.

Definition binary := list Byte.byte.

Inductive message_id :=
| id_empty
| id_ulong (n : Z)
| id_uuid (u : binary)
| id_binary (b : binary)
| id_string (s : string).

Inductive scalar :=
| scalar_null
| scalar_bool (b : bool)
| scalar_long (z : Z)
| scalar_ulong (z : Z)
| scalar_binary (b : binary)
| scalar_string (s : string).

Record message := Message {
  msg_body : binary;
  msg_id : message_id;
  msg_properties : gmap string scalar;
  msg_durable : bool
}.

(** [proton::message m(body)]. *)
Definition message_of_body (b : binary) : message :=
  {| msg_body := b; msg_id := id_empty; msg_properties := ∅; msg_durable := false |}.

Definition set_id (i : message_id) (m : message) : message :=
  {| msg_body := msg_body m; msg_id := i;
     msg_properties := msg_properties m; msg_durable := msg_durable m |}.

Definition put_property (k : string) (v : scalar) (m : message) : message :=
  {| msg_body := msg_body m; msg_id := msg_id m;
     msg_properties := <[k := v]> (msg_properties m); msg_durable := msg_durable m |}.

Definition set_durable (d : bool) (m : message) : message :=
  {| msg_body := msg_body m; msg_id := msg_id m;
     msg_properties := msg_properties m; msg_durable := d |}.

(** [m.properties().get(k)]: the empty value when the key is absent. *)
Definition get_property (k : string) (m : message) : scalar :=
  default scalar_null (msg_properties m !! k).

(** What the [container&] passed to [on_container_start] hands back:
    the connection made by [connect], the listener made by [listen]. *)
Record container := Container {
  connect_result : connection;
  listen_result : listener
}.

(** A sender link: the credit the peer has granted and not yet used. *)
Record sender := Sender { credit : Z }.

(** An incoming receiver link, with the target address the peer asked for. *)
Record receiver := Receiver { receiver_link : nat; target_address : string }.

Record tracker := Tracker { tracker_delivery : nat }.
Record delivery := Delivery { delivery_tag : nat }.

(** A transport in error, with the text of its error condition. *)
Record transport := Transport { error_what : string }.

(** The closure given to [schedule]; the handler only ever schedules
    [[this] { stop(); }]. *)
Inductive work := call_stop.

(** [proton::duration::SECOND], in the engine's unit, the millisecond. *)
Definition SECOND : Z := 1000.

(** Requests the handler queues into the engine. *)
Inductive command :=
| connect (domain : string) (sasl_allowed_mechs : string)
| listen (domain : string) (sasl_allowed_mechs : string)
| schedule (delay : Z) (w : work)
| open_sender (c : connection) (path : string)
| open_receiver (c : connection) (path : string) (credit_window : Z)
| connection_open (c : connection)
| receiver_open (r : receiver) (target : string) (credit_window : Z)
| send (m : message)
| connection_close (c : connection)
| listener_stop (l : option listener).

End proton.

(** ** The handler struct *)

Record handler := Handler {
  connection_mode : string;
  channel_mode : string;
  operation : string;
  id : string;
  host : string;
  port : string;
  path : string;
  seconds : Z;
  messages : Z;
  body_size : Z;
  credit_window : Z;
  durable : bool;
  connection : option proton.connection;
  listener : option proton.listener;
  body : proton.binary;
  start_time : Z;
  sent : Z;
  received : Z;
  accepted : Z
}.

Definition with_connection (c : option proton.connection) (h : handler) : handler :=
  Handler (connection_mode h) (channel_mode h) (operation h) (id h) (host h) (port h)
    (path h) (seconds h) (messages h) (body_size h) (credit_window h) (durable h)
    c (listener h) (body h) (start_time h) (sent h) (received h) (accepted h).

Definition with_listener (l : option proton.listener) (h : handler) : handler :=
  Handler (connection_mode h) (channel_mode h) (operation h) (id h) (host h) (port h)
    (path h) (seconds h) (messages h) (body_size h) (credit_window h) (durable h)
    (connection h) l (body h) (start_time h) (sent h) (received h) (accepted h).

Definition with_body (b : proton.binary) (h : handler) : handler :=
  Handler (connection_mode h) (channel_mode h) (operation h) (id h) (host h) (port h)
    (path h) (seconds h) (messages h) (body_size h) (credit_window h) (durable h)
    (connection h) (listener h) b (start_time h) (sent h) (received h) (accepted h).

Definition with_start_time (t : Z) (h : handler) : handler :=
  Handler (connection_mode h) (channel_mode h) (operation h) (id h) (host h) (port h)
    (path h) (seconds h) (messages h) (body_size h) (credit_window h) (durable h)
    (connection h) (listener h) (body h) t (sent h) (received h) (accepted h).

Definition with_sent (n : Z) (h : handler) : handler :=
  Handler (connection_mode h) (channel_mode h) (operation h) (id h) (host h) (port h)
    (path h) (seconds h) (messages h) (body_size h) (credit_window h) (durable h)
    (connection h) (listener h) (body h) (start_time h) n (received h) (accepted h).

Definition with_received (n : Z) (h : handler) : handler :=
  Handler (connection_mode h) (channel_mode h) (operation h) (id h) (host h) (port h)
    (path h) (seconds h) (messages h) (body_size h) (credit_window h) (durable h)
    (connection h) (listener h) (body h) (start_time h) (sent h) n (accepted h).

Definition with_accepted (n : Z) (h : handler) : handler :=
  Handler (connection_mode h) (channel_mode h) (operation h) (id h) (host h) (port h)
    (path h) (seconds h) (messages h) (body_size h) (credit_window h) (durable h)
    (connection h) (listener h) (body h) (start_time h) (sent h) (received h) n.

(** ** Effects: handler state, standard output, engine requests, the clock *)

(** [clock] is the sequence of readings the system clock will give, one per
    call of [now]; [ticks] counts the readings taken so far. *)
Record state := State {
  this : handler;
  cout : list string;
  requests : list proton.command;
  clock : nat → Z;
  ticks : nat
}.

Inductive exn :=
| std_exception
| std_length_error
| proton_error (text : string).

(** [e.what()]. The text of [std::length_error] is the one libstdc++ gives
    to a string constructed with an oversized count. *)
Definition what (e : exn) : string :=
  match e with
  | std_exception => "std::exception"
  | std_length_error => "basic_string::_M_create"
  | proton_error text => text
  end.

(** A callback returns, throws, or dies on a failed [assert]. *)
Inductive outcome (A : Type) :=
| Ok (a : A) (σ : state)
| Throw (e : exn) (σ : state)
| Abort (σ : state).
Arguments Ok {A} a σ.
Arguments Throw {A} e σ.
Arguments Abort {A} σ.

Definition final {A} (o : outcome A) : state :=
  match o with Ok _ σ | Throw _ σ | Abort σ => σ end.

Definition returns {A} (o : outcome A) : bool :=
  match o with Ok _ _ => true | _ => false end.

Definition M (A : Type) : Type := state → outcome A.

#[global] Instance M_ret : MRet M := λ A a σ, Ok a σ.
#[global] Instance M_bind : MBind M := λ A B f m σ,
  match m σ with
  | Ok a σ' => f a σ'
  | Throw e σ' => Throw e σ'
  | Abort σ' => Abort σ'
  end.

Definition throw {A} (e : exn) : M A := λ σ, Throw e σ.
Definition assert (b : bool) : M unit := λ σ, if b then Ok () σ else Abort σ.

Definition get_this : M handler := λ σ, Ok (this σ) σ.
Definition modify_this (f : handler → handler) : M unit := λ σ,
  Ok () (State (f (this σ)) (cout σ) (requests σ) (clock σ) (ticks σ)).

(** One line written to [std::cout]. *)
Definition print (line : string) : M unit := λ σ,
  Ok () (State (this σ) (cout σ ++ [line]) (requests σ) (clock σ) (ticks σ)).

(** A request queued into the engine. *)
Definition request (c : proton.command) : M unit := λ σ,
  Ok () (State (this σ) (cout σ) (requests σ ++ [c]) (clock σ) (ticks σ)).

(** [now()]: epoch milliseconds. *)
Definition now : M Z := λ σ,
  Ok (clock σ (ticks σ)) (State (this σ) (cout σ) (requests σ) (clock σ) (S (ticks σ))).

(** [operator<<] into an output stream. *)
Class Insertable (A : Type) := inserted : A → string.
#[global] Instance Insertable_string : Insertable string := λ s, s.
#[global] Instance Insertable_int64 : Insertable Z := to_string.

(** [s.send(m)]: the message is handed to the engine and uses up one credit. *)
Definition sender_send (s : proton.sender) (m : proton.message) : M proton.sender :=
  request (proton.send m);; mret (proton.Sender (proton.credit s - 1)).

(** ** The callbacks *)

(** [void stop()]. A null [connection] handle converts to [false]. *)
Definition stop : M unit :=
  h ← get_this;
  match connection h with
  | Some c => request (proton.connection_close c)
  | None => mret ()
  end;;
  if bool_decide (connection_mode h = "server")
  then request (proton.listener_stop (listener h))
  else mret ().

Definition run_work (w : proton.work) : M unit :=
  match w with proton.call_stop => stop end.

(** [std::string(body_size, 'x')]: the count converts to [size_t], so a
    negative one is beyond [max_size()]. *)
Definition filler (n : Z) : M proton.binary :=
  if bool_decide (0 ≤ n) then mret (replicate (Z.to_nat n) Byte.x78)
  else throw std_length_error.

Definition on_container_start (c : proton.container) : M unit :=
  h ← get_this;
  b ← filler (body_size h);
  modify_this (with_body b);;
  let domain := host h +:+ ":" +:+ port h in
  let sasl_allowed_mechs := "ANONYMOUS" in
  (if bool_decide (connection_mode h = "client") then
     request (proton.connect domain sasl_allowed_mechs);;
     modify_this (with_connection (Some (proton.connect_result c)))
   else if bool_decide (connection_mode h = "server") then
     request (proton.listen domain sasl_allowed_mechs);;
     modify_this (with_listener (Some (proton.listen_result c)))
   else throw std_exception);;
  t ← now;
  modify_this (with_start_time t);;
  if bool_decide (0 < seconds h)
  then request (proton.schedule (seconds h * proton.SECOND) proton.call_stop)
  else mret ().

Definition on_connection_open (c : proton.connection) : M unit :=
  h ← get_this;
  if bool_decide (channel_mode h = "active") then
    if bool_decide (operation h = "send") then
      request (proton.open_sender c (path h))
    else if bool_decide (operation h = "receive") then
      request (proton.open_receiver c (path h) (credit_window h))
    else throw std_exception
  else
    modify_this (with_connection (Some c));;
    request (proton.connection_open c).

Definition on_receiver_open (r : proton.receiver) : M unit :=
  h ← get_this;
  request (proton.receiver_open r (proton.target_address r) (credit_window h)).

(** The [while] loop of [on_sendable]. Every turn uses up one credit, so
    [fuel] turns are all the loop can take when [fuel] is the credit at
    entry (see [send_loop_fuel]). *)
Fixpoint send_loop (fuel : nat) (s : proton.sender) : M unit :=
  match fuel with
  | O => mret ()
  | S fuel' =>
    h ← get_this;
    if bool_decide (0 < proton.credit s) && bool_decide (sent h < messages h) then
      let id := to_string (int_succ (sent h)) in
      stime ← now;
      let m := proton.message_of_body (body h) in
      let m := proton.set_id (proton.id_string id) m in
      let m := proton.put_property "SendTime" (proton.scalar_long stime) m in
      let m := if durable h then proton.set_durable true m else m in
      s' ← sender_send s m;
      modify_this (λ h, with_sent (int_succ (sent h)) h);;
      print (id +:+ "," +:+ inserted stime +:+ newline);;
      send_loop fuel' s'
    else mret ()
  end.

Definition on_sendable (s : proton.sender) : M unit :=
  h ← get_this;
  assert (bool_decide (operation h = "send"));;
  send_loop (Z.to_nat (proton.credit s)) s.

Definition on_tracker_accept (t : proton.tracker) : M unit :=
  modify_this (λ h, with_accepted (int_succ (accepted h)) h);;
  h ← get_this;
  if bool_decide (accepted h = messages h) then stop else mret ().

(** Modelled from the spec: [proton::messaging_handler::on_error], the
    library's default, which [handler] inherits unchanged.  It surfaces the
    error as a fatal failure of the run: it throws an exception carrying the
    text of the error condition. *)
Definition on_error (text : string) : M unit := throw (proton_error text).

Definition on_transport_error (t : proton.transport) : M unit :=
  h ← get_this;
  if bool_decide (connection_mode h ≠ "server")
  then on_error (proton.error_what t)
  else mret ().

(** What the engine can hand to the handler. [TimerFired] is the engine
    running a closure it was given through [schedule]. *)
Inductive event :=
| ContainerStart (c : proton.container)
| ConnectionOpen (c : proton.connection)
| ReceiverOpen (r : proton.receiver)
| Sendable (s : proton.sender)
| TrackerAccept (t : proton.tracker)
| MessageDelivered (d : proton.delivery) (m : proton.message)
| TransportError (t : proton.transport)
| TimerFired (w : proton.work).

Section callbacks.

(** How the engine prints a message id and a property value. *)
Context {id_text : Insertable proton.message_id} {scalar_text : Insertable proton.scalar}.

Definition on_message (d : proton.delivery) (m : proton.message) : M unit :=
  h ← get_this;
  assert (bool_decide (operation h = "receive"));;
  if bool_decide (received h = messages h) then mret ()
  else
    modify_this (λ h, with_received (int_succ (received h)) h);;
    let id := proton.msg_id m in
    let stime := proton.get_property "SendTime" m in
    rtime ← now;
    print (inserted id +:+ "," +:+ inserted stime +:+ "," +:+ inserted rtime +:+ newline);;
    h ← get_this;
    if bool_decide (received h = messages h) then stop else mret ().

Definition dispatch (e : event) : M unit :=
  match e with
  | ContainerStart c => on_container_start c
  | ConnectionOpen c => on_connection_open c
  | ReceiverOpen r => on_receiver_open r
  | Sendable s => on_sendable s
  | TrackerAccept t => on_tracker_accept t
  | MessageDelivered d m => on_message d m
  | TransportError t => on_transport_error t
  | TimerFired w => run_work w
  end.

(** The engine delivers events one at a time; an exception or a failed
    assertion in a callback ends the run. *)
Fixpoint run (evs : list event) : M unit :=
  match evs with
  | [] => mret ()
  | e :: evs' => dispatch e;; run evs'
  end.

(** [proton::default_container(h, h.id).run()]. *)
Definition container_run (c : proton.container) (evs : list event) : M unit :=
  on_container_start c;; run evs.

End callbacks.

(** ** The process *)

(** [eprint]: one line on [std::cerr]. *)
Definition eprint (message : string) : string :=
  "quiver-arrow: error: " +:+ message +:+ newline.

Inductive exit_status :=
| Exit (code : Z)
| Aborted.

Record process_end := ProcessEnd {
  status : exit_status;
  stdout : list string;
  eprinted : list string
}.

(** A [handler h;] with its fields assigned as [main] does, from arguments
    already converted. *)
Definition new_handler (connection_mode channel_mode operation id host port path : string)
    (seconds messages body_size credit_window : Z) (durable : bool) : handler :=
  Handler connection_mode channel_mode operation id host port path
    seconds messages body_size credit_window durable None None [] 0 0 0 0.

(** The state in which the container starts to run handler [h]. *)
Definition boot (h : handler) (clk : nat → Z) : state := State h [] [] clk 0.

Section process.

Context {id_text : Insertable proton.message_id} {scalar_text : Insertable proton.scalar}.

(** The [try] block that ends [main], for a handler [h] already filled in:
    the engine is played by the container [c] and the events [evs] it
    delivers after the start. *)
Definition main_run (h : handler) (clk : nat → Z) (c : proton.container)
    (evs : list event) : process_end :=
  match container_run c evs (boot h clk) with
  | Ok _ σ => ProcessEnd (Exit 0) (cout σ) []
  | Throw e σ => ProcessEnd (Exit 1) (cout σ) [eprint (what e)]
  | Abort σ => ProcessEnd Aborted (cout σ) []
  end.

End process.

(** ** Vocabulary of the statements *)

(** The report line of a sent message, [id,stime]. *)
Definition sent_line (n stime : Z) : string :=
  to_string n +:+ "," +:+ to_string stime +:+ newline.

(** The message [on_sendable] builds for identifier [n] at time [stime]. *)
Definition sent_message (h : handler) (n stime : Z) : proton.message :=
  proton.Message (body h) (proton.id_string (to_string n))
    {[ "SendTime" := proton.scalar_long stime ]} (durable h).

(** [k] consecutive sends, the first with identifier [first] and stamped
    with clock reading number [t]. *)
Fixpoint sent_lines (clk : nat → Z) (k : nat) (first : Z) (t : nat) : list string :=
  match k with
  | O => []
  | S k' => sent_line first (clk t) :: sent_lines clk k' (first + 1) (S t)
  end.

Fixpoint sent_requests (h : handler) (clk : nat → Z) (k : nat) (first : Z) (t : nat)
    : list proton.command :=
  match k with
  | O => []
  | S k' => proton.send (sent_message h first (clk t))
            :: sent_requests h clk k' (first + 1) (S t)
  end.

(** The state [k] sends after [σ]. *)
Definition after_sends (σ : state) (k : nat) : state :=
  State (with_sent (sent (this σ) + Z.of_nat k) (this σ))
        (cout σ ++ sent_lines (clock σ) k (sent (this σ) + 1) (ticks σ))
        (requests σ ++ sent_requests (this σ) (clock σ) k (sent (this σ) + 1) (ticks σ))
        (clock σ)
        (ticks σ + k).

(** The credit a sequence of sendable links offers in all. *)
Definition total_credit (ss : list proton.sender) : Z :=
  foldr (λ s acc, Z.max 0 (proton.credit s) + acc) 0 ss.

Definition is_send (c : proton.command) : bool :=
  match c with proton.send _ => true | _ => false end.

(** The number of messages submitted to the engine. *)
Definition submitted (σ : state) : nat := length (filter is_send (requests σ)).

(** The requests one call of [stop] makes on handler [h]. *)
Definition stop_requests (h : handler) : list proton.command :=
  match connection h with
  | Some c => [proton.connection_close c]
  | None => []
  end ++
  if bool_decide (connection_mode h = "server")
  then [proton.listener_stop (listener h)]
  else [].

(** [stop] was called on handler [h] between [σ] and [σ']: nothing but
    its requests was added. *)
Definition stopped_from (σ σ' : state) : Prop :=
  σ' = State (this σ) (cout σ) (requests σ ++ stop_requests (this σ)) (clock σ) (ticks σ).

(** Modelled from the spec: the engine's side of the termination routine,
    which is not part of this repository.  Closing a connection marks it
    closed and closing it again is a no-op; stopping a listener likewise.
    The other requests do not close or stop anything. *)
Record engine := Engine {
  closed : gset nat;
  stopped : gset nat
}.

Definition engine_step (g : engine) (c : proton.command) : engine :=
  match c with
  | proton.connection_close (proton.Connection n) => Engine ({[n]} ∪ closed g) (stopped g)
  | proton.listener_stop (Some (proton.Listener n)) => Engine (closed g) ({[n]} ∪ stopped g)
  | _ => g
  end.

Definition engine_after (g : engine) (cs : list proton.command) : engine :=
  foldl engine_step g cs.

(** How often a connection's close is among the requests. *)
Definition closes (c : proton.connection) (r : proton.command) : bool :=
  match r with
  | proton.connection_close c' => bool_decide (c' = c)
  | _ => false
  end.

Definition close_requests (c : proton.connection) (cs : list proton.command) : nat :=
  length (filter (closes c) cs).

(** How many timers the requests schedule. *)
Definition is_schedule (c : proton.command) : bool :=
  match c with proton.schedule _ _ => true | _ => false end.

Definition timers (cs : list proton.command) : list proton.command := filter is_schedule cs.

(** The fields [main] fills in from the command line. *)
Definition config (h : handler) :=
  (connection_mode h, channel_mode h, operation h, id h, host h, port h, path h,
   seconds h, messages h, body_size h, credit_window h, durable h).

(** A rendering of message ids and property values, to run the callbacks on
    examples: strings as they are, integers in decimal. *)
Definition sample_id_text : Insertable proton.message_id := λ i,
  match i with
  | proton.id_string s => s
  | proton.id_ulong n => to_string n
  | _ => "?"
  end.

Definition sample_scalar_text : Insertable proton.scalar := λ v,
  match v with
  | proton.scalar_string s => s
  | proton.scalar_long z | proton.scalar_ulong z => to_string z
  | _ => "?"
  end.

(** The counters of a handler start at zero. *)
Definition fresh (h : handler) : Prop :=
  sent h = 0 ∧ received h = 0 ∧ accepted h = 0.

(** The message count is a non-negative [int]. *)
Definition count_valid (h : handler) : Prop := 0 ≤ messages h ≤ INT_MAX.

(** The send and receive counters lie between zero and the message count. *)
Definition counters_bounded (h : handler) : Prop :=
  0 ≤ sent h ≤ messages h ∧ 0 ≤ received h ≤ messages h ∧ messages h ≤ INT_MAX.

Section traces.

Context {id_text : Insertable proton.message_id} {scalar_text : Insertable proton.scalar}.

(** An accept confirmation answers a message that was sent and not yet
    confirmed. *)
Definition confirms_a_send (e : event) (σ : state) : Prop :=
  match e with
  | TrackerAccept _ => accepted (this σ) < sent (this σ)
  | _ => True
  end.

Fixpoint accepts_follow_sends (evs : list event) (σ : state) : Prop :=
  match evs with
  | [] => True
  | e :: evs' =>
    confirms_a_send e σ ∧
    match dispatch e σ with
    | Ok _ σ' => accepts_follow_sends evs' σ'
    | _ => True
    end
  end.

End traces.

(** ** The rest of the program: [split] and [main] *)

(** What one [std::getline(ss, elem, delim)] takes from the characters [ss]
    still unread: the element up to the delimiter, and what is left after
    it.  The delimiter is consumed and not stored. *)
Fixpoint getline_chars (delim : Ascii.ascii) (ss : string) : string * string :=
  match ss with
  | EmptyString => (EmptyString, EmptyString)
  | String c ss' =>
    if bool_decide (c = delim) then (EmptyString, ss')
    else let '(elem, rest) := getline_chars delim ss' in (String c elem, rest)
  end.

(** [std::getline] fails, and ends the loop, when nothing is left to read. *)
Definition getline (delim : Ascii.ascii) (ss : string) : option (string * string) :=
  match ss with
  | EmptyString => None
  | _ => Some (getline_chars delim ss)
  end.

(** The [while] loop of [split]. Every turn reads at least one character,
    so the length of the input is fuel enough (see [split_loop_fuel]). *)
Fixpoint split_loop (fuel : nat) (delim : Ascii.ascii) (ss : string) (elems : list string)
    : list string :=
  match fuel with
  | O => elems
  | S fuel' =>
    match getline delim ss with
    | Some (elem, ss') => split_loop fuel' delim ss' (elems ++ [elem])
    | None => elems
    end
  end.

Definition split (s : string) (delim : Ascii.ascii) : list string :=
  split_loop (String.length s) delim s [].

(** [std::any_of(flags.begin(), flags.end(), ...)] with the lambda of [main]. *)
Definition any_durable (flags : list string) : bool :=
  existsb (λ s, bool_decide (s = "durable")) flags.

Section main.

Context {id_text : Insertable proton.message_id} {scalar_text : Insertable proton.scalar}.

(** [std::atoi], from the C library. *)
Variable atoi : string → Z.

(** The version macros of [proton/version.h]. *)
Variables PN_VERSION_MAJOR PN_VERSION_MINOR PN_VERSION_POINT : Z.

(** The handler [main] fills in from its arguments. Reading an argument
    that was not given is undefined, here [None]. *)
Definition handler_of_argv (argv : list string) : option handler :=
  connection_mode ← argv !! 1%nat;
  channel_mode ← argv !! 2%nat;
  operation ← argv !! 3%nat;
  id ← argv !! 4%nat;
  host ← argv !! 5%nat;
  port ← argv !! 6%nat;
  path ← argv !! 7%nat;
  seconds ← argv !! 8%nat;
  messages ← argv !! 9%nat;
  body_size ← argv !! 10%nat;
  credit_window ← argv !! 11%nat;
  flags ← argv !! 13%nat;
  Some (new_handler connection_mode channel_mode operation id host port path
          (atoi seconds) (atoi messages) (atoi body_size) (atoi credit_window)
          (any_durable (split flags ","%char))).

(** [main]; [argc] is the length of [argv]. *)
Definition main (argv : list string) (clk : nat → Z) (c : proton.container)
    (evs : list event) : option process_end :=
  if bool_decide (length argv = 1%nat) then
    Some (ProcessEnd (Exit 0)
            ["Qpid Proton C++ " +:+ inserted PN_VERSION_MAJOR +:+ "." +:+
             inserted PN_VERSION_MINOR +:+ "." +:+
             inserted PN_VERSION_POINT +:+ newline] [])
  else
    transaction_arg ← argv !! 12%nat;
    let transaction_size := atoi transaction_arg in
    if bool_decide (0 < transaction_size) then
      Some (ProcessEnd (Exit 1) [] [eprint "This impl doesn't support transactions"])
    else
      h ← handler_of_argv argv;
      Some (main_run h clk c evs).

End main.

(** ** Vocabulary of the further statements *)

(** A character occurs in a string. *)
Fixpoint occurs (c : Ascii.ascii) (s : string) : bool :=
  match s with
  | EmptyString => false
  | String c' s' => bool_decide (c' = c) || occurs c s'
  end.

(** The tokens written one after the other with the delimiter between
    them. *)
Fixpoint join (delim : Ascii.ascii) (ts : list string) : string :=
  match ts with
  | [] => EmptyString
  | [t] => t
  | t :: ts' => t +:+ String delim (join delim ts')
  end.

(** Every element followed by the delimiter. *)
Fixpoint terminated (delim : Ascii.ascii) (ts : list string) : string :=
  match ts with
  | [] => EmptyString
  | t :: ts' => t +:+ String delim (terminated delim ts')
  end.

(** The string ends with the delimiter. *)
Fixpoint ends_with (delim : Ascii.ascii) (s : string) : bool :=
  match s with
  | EmptyString => false
  | String c EmptyString => bool_decide (c = delim)
  | String _ s' => ends_with delim s'
  end.

(** A reading of decimal numerals, to run [main] on examples: an optional
    minus sign and digits, up to the first other character. *)
Fixpoint sample_digits (acc : Z) (s : string) : Z :=
  match s with
  | EmptyString => acc
  | String c s' =>
    let d := Z.of_nat (Ascii.nat_of_ascii c) - 48 in
    if bool_decide (0 ≤ d ≤ 9) then sample_digits (10 * acc + d) s' else acc
  end.

Definition sample_atoi (s : string) : Z :=
  match s with
  | String "-"%char s' => - sample_digits 0 s'
  | _ => sample_digits 0 s
  end.

(** The report line of a received message, [id,stime,rtime]. *)
Definition received_line {id_text : Insertable proton.message_id}
    {scalar_text : Insertable proton.scalar} (m : proton.message) (rtime : Z) : string :=
  inserted (proton.msg_id m) +:+ "," +:+
  inserted (proton.get_property "SendTime" m) +:+ "," +:+
  inserted rtime +:+ newline.

(** The lines of consecutive deliveries, the first stamped with clock
    reading number [t]. *)
Fixpoint received_lines {id_text : Insertable proton.message_id}
    {scalar_text : Insertable proton.scalar} (clk : nat → Z)
    (ms : list proton.message) (t : nat) : list string :=
  match ms with
  | [] => []
  | m :: ms' => received_line m (clk t) :: received_lines clk ms' (S t)
  end.

Definition delivered (dm : proton.delivery * proton.message) : event :=
  MessageDelivered dm.1 dm.2.

(** A request made by the termination routine. *)
Definition is_stop_request (c : proton.command) : bool :=
  match c with
  | proton.connection_close _ | proton.listener_stop _ => true
  | _ => false
  end.

Definition is_close (c : proton.command) : bool :=
  match c with
  | proton.connection_close _ => true
  | _ => false
  end.

Definition is_timer (e : event) : bool :=
  match e with TimerFired _ => true | _ => false end.

Definition is_start (e : event) : bool :=
  match e with ContainerStart _ => true | _ => false end.

(** A submitted message has the handler's filler body and durability. *)
Definition carries (h : handler) (c : proton.command) : Prop :=
  match c with
  | proton.send m => proton.msg_body m = body h ∧ proton.msg_durable m = durable h
  | _ => True
  end.

(** Modelled from the spec: the engine's one-shot timer, the
    [schedule(delay, callback)] of the protocol-engine interface, which is
    not part of this repository.  The engine runs a scheduled work once,
    when its delay has elapsed; [elapsed] is the time since the container
    started, in the unit of the delay, and [due] is what a request has the
    engine run by then. *)
Definition due (elapsed : Z) (c : proton.command) : option proton.work :=
  match c with
  | proton.schedule delay w => if bool_decide (delay ≤ elapsed) then Some w else None
  | _ => None
  end.

Section timer.

Context {id_text : Insertable proton.message_id} {scalar_text : Insertable proton.scalar}.

(** The engine runs the works that are due. *)
Definition fire_timers (elapsed : Z) : M unit := λ σ,
  run (TimerFired <$> omap (due elapsed) (requests σ)) σ.

(** A run in which the engine delivers [evs] after start-up and then,
    [elapsed] after start-up, runs the timers due. *)
Definition timed_run (c : proton.container) (evs : list event) (elapsed : Z) : M unit :=
  container_run c evs;; fire_timers elapsed.

End timer.

(** * Properties *)

(** ** Integers and records *)

Lemma int_succ_no_overflow (x : Z) : INT_MIN ≤ x < INT_MAX → int_succ x = x + 1.
Proof.
  unfold int_succ, wrap_int, INT_MIN, INT_MAX. intros Hx.
  rewrite Z.mod_small; lia.
Qed.

Lemma state_eta (σ : state) :
  State (this σ) (cout σ) (requests σ) (clock σ) (ticks σ) = σ.
Proof. by destruct σ. Qed.

Ltac unfold_monad :=
  unfold mbind, M_bind, mret, M_ret, get_this, modify_this, request, print,
    now, assert, throw, on_error in *.

(** ** The termination routine *)

Lemma stop_run (σ : state) :
  stop σ = Ok () (State (this σ) (cout σ) (requests σ ++ stop_requests (this σ))
                        (clock σ) (ticks σ)).
Proof.
  unfold stop, stop_requests. unfold_monad. simpl.
  destruct (connection (this σ)) as [c|]; simpl;
    case_bool_decide; simpl; rewrite <- ?app_assoc, ?app_nil_r, ?state_eta; done.
Qed.

Lemma stop_stopped_from (σ : state) : ∃ σ', stop σ = Ok () σ' ∧ stopped_from σ σ'.
Proof. eexists. split; [apply stop_run | reflexivity]. Qed.

Lemma engine_after_app g cs1 cs2 :
  engine_after g (cs1 ++ cs2) = engine_after (engine_after g cs1) cs2.
Proof. apply foldl_app. Qed.

Lemma add_twice (n : nat) (X : gset nat) : {[n]} ∪ ({[n]} ∪ X) = {[n]} ∪ X.
Proof. rewrite (assoc_L (∪)). by rewrite union_idemp_L. Qed.

Lemma add_comm (n m : nat) (X : gset nat) : {[n]} ∪ ({[m]} ∪ X) = {[m]} ∪ ({[n]} ∪ X).
Proof. rewrite !(assoc_L (∪)). by rewrite (comm_L (∪) {[n]}). Qed.

Lemma engine_step_twice g c : engine_step (engine_step g c) c = engine_step g c.
Proof.
  destruct c as [| | | | | | | |[n]|[[n]|]]; simpl; try done.
  - by rewrite add_twice.
  - by rewrite add_twice.
Qed.

Lemma engine_step_comm g c1 c2 :
  engine_step (engine_step g c1) c2 = engine_step (engine_step g c2) c1.
Proof.
  destruct c1 as [| | | | | | | |[n1]|[[n1]|]], c2 as [| | | | | | | |[n2]|[[n2]|]];
    simpl; try done.
  - by rewrite add_comm.
  - by rewrite add_comm.
Qed.

Lemma engine_after_stop_twice g h :
  engine_after g (stop_requests h ++ stop_requests h) = engine_after g (stop_requests h).
Proof.
  unfold stop_requests, engine_after.
  destruct (connection h) as [c|]; case_bool_decide; cbn [app foldl];
    rewrite ?engine_step_twice; try done.
  rewrite (engine_step_comm (engine_step g _) (proton.listener_stop _)).
  by rewrite !engine_step_twice.
Qed.

(** C7, as stated, fails: the handler keeps its connection reference after
    the close, so a second call of the termination routine asks the engine
    to close the same connection again; the requests of two calls differ
    from those of one. *)
Lemma stop_twice_closes_twice :
  let h := with_connection (Some (proton.Connection 1))
             (new_handler "client" "active" "send" "arrow" "localhost" "5672" "q" 0 1 1 1 false) in
  let σ := boot h (λ _, 0) in
  close_requests (proton.Connection 1) (requests (final ((stop;; stop) σ))) = 2%nat ∧
  close_requests (proton.Connection 1) (requests (final (stop σ))) = 1%nat ∧
  final ((stop;; stop) σ) ≠ final (stop σ).
Proof. repeat split; [vm_compute; reflexivity .. | discriminate]. Qed.

(** C7, amended: the termination routine never fails and changes neither
    the handler nor the output; each call requests the close of the
    connection exactly when a reference is held and the stop of the listener
    exactly when the connection mode is server; a second call makes the same
    requests once more, and as the engine treats the close of a closed
    connection and the stop of a stopped listener as no-ops, it leaves the
    engine where the first call left it. *)
Theorem stop_twice_same_engine (σ : state) :
  let h := this σ in
  (∀ c, proton.connection_close c ∈ stop_requests h ↔ connection h = Some c) ∧
  (∀ l, proton.listener_stop l ∈ stop_requests h ↔
        connection_mode h = "server" ∧ l = listener h) ∧
  (∃ σ1 σ2,
     stop σ = Ok () σ1 ∧ (stop;; stop) σ = Ok () σ2 ∧
     this σ1 = h ∧ this σ2 = h ∧ cout σ1 = cout σ ∧ cout σ2 = cout σ ∧
     requests σ1 = requests σ ++ stop_requests h ∧
     requests σ2 = requests σ ++ stop_requests h ++ stop_requests h ∧
     ∀ g, engine_after g (requests σ2) = engine_after g (requests σ1)).
Proof.
  intros h. split; [|split].
  - intros c. unfold stop_requests.
    destruct (connection h) as [c'|]; case_bool_decide; simpl;
      rewrite ?elem_of_cons, ?elem_of_nil; intuition congruence.
  - intros l. unfold stop_requests.
    destruct (connection h) as [c'|]; case_bool_decide; simpl;
      rewrite ?elem_of_cons, ?elem_of_nil; intuition congruence.
  - eexists _, _. split; [apply stop_run|].
    split.
    { unfold mbind, M_bind. rewrite stop_run. rewrite stop_run. simpl. reflexivity. }
    simpl. repeat split; try done.
    + by rewrite <- app_assoc.
    + intros g. fold h. rewrite <- app_assoc, !engine_after_app.
      by rewrite <- engine_after_app, engine_after_stop_twice.
Qed.

(** ** Accept confirmations *)

(** C6: an accept confirmation adds one to [accepted], and the termination
    routine is called exactly when the new value equals [messages]:
    then the callback is [stop] run on the incremented state, otherwise it
    returns that state with nothing requested. *)
Theorem on_tracker_accept_counts (t : proton.tracker) (σ : state) :
  INT_MIN ≤ accepted (this σ) < INT_MAX →
  let h' := with_accepted (accepted (this σ) + 1) (this σ) in
  let σ' := State h' (cout σ) (requests σ) (clock σ) (ticks σ) in
  accepted (this (final (on_tracker_accept t σ))) = accepted (this σ) + 1 ∧
  (accepted (this σ) + 1 = messages (this σ) →
     on_tracker_accept t σ = stop σ' ∧
     requests (final (on_tracker_accept t σ)) = requests σ ++ stop_requests h') ∧
  (accepted (this σ) + 1 ≠ messages (this σ) →
     on_tracker_accept t σ = Ok () σ').
Proof.
  intros Hrange h' σ'.
  assert (Hrun : on_tracker_accept t σ =
                 if bool_decide (accepted h' = messages h') then stop σ' else Ok () σ').
  { unfold on_tracker_accept. unfold_monad. simpl.
    rewrite int_succ_no_overflow by done. fold h'. fold σ'.
    by case_bool_decide. }
  rewrite Hrun. replace (messages h') with (messages (this σ)) by done.
  replace (accepted h') with (accepted (this σ) + 1) by done.
  split; [|split].
  - clear Hrun. rewrite stop_run. by destruct (bool_decide _).
  - intros Heq. rewrite bool_decide_true by done. by rewrite stop_run.
  - intros Hne. by rewrite bool_decide_false.
Qed.

Lemma on_tracker_accept_counts_witness :
  let σ := boot (new_handler "client" "active" "send" "arrow" "localhost" "5672" "q" 0 1 1 1 false)
                (λ _, 0) in
  accepted (this (final (on_tracker_accept (proton.Tracker 0) σ))) = 1.
Proof.
  intros σ.
  apply (on_tracker_accept_counts (proton.Tracker 0) σ).
  unfold INT_MIN, INT_MAX. simpl. lia.
Defined.

(** ** Connection open *)

(** C10: when the channel mode is anything but active, the connection
    reference is stored and the connection opened, whatever [operation] is;
    the callback throws only in active mode, and there only for an
    operation that is neither send nor receive. *)
Theorem on_connection_open_checks_operation_only_when_active
    (c : proton.connection) (σ : state) :
  (channel_mode (this σ) ≠ "active" →
     on_connection_open c σ =
       Ok () (State (with_connection (Some c) (this σ)) (cout σ)
                    (requests σ ++ [proton.connection_open c]) (clock σ) (ticks σ))) ∧
  (∀ e σ', on_connection_open c σ = Throw e σ' →
     channel_mode (this σ) = "active" ∧
     operation (this σ) ≠ "send" ∧ operation (this σ) ≠ "receive").
Proof.
  unfold on_connection_open. unfold_monad. simpl. split.
  - intros Hpassive. by rewrite bool_decide_false.
  - intros e σ'. repeat case_bool_decide; done.
Qed.

Lemma on_connection_open_checks_operation_only_when_active_witness :
  let σ := boot (new_handler "server" "passive" "relay" "arrow" "localhost" "5672" "q" 0 1 1 1 false)
                (λ _, 0) in
  connection (this (final (on_connection_open (proton.Connection 7) σ)))
    = Some (proton.Connection 7) ∧
  returns (on_connection_open (proton.Connection 7) σ) = true.
Proof.
  intros σ.
  destruct (on_connection_open_checks_operation_only_when_active (proton.Connection 7) σ)
    as [Hpassive _].
  rewrite Hpassive; [split; reflexivity | discriminate].
Defined.

(** ** Deliveries *)

Section deliveries.

Context {id_text : Insertable proton.message_id} {scalar_text : Insertable proton.scalar}.

(** C5: a delivery that arrives when [received] already equals
    [messages] changes no field of the state and writes nothing, and in a
    receive run the callback returns normally. *)
Theorem on_message_ignores_late_delivery (d : proton.delivery) (m : proton.message)
    (σ : state) :
  received (this σ) = messages (this σ) →
  final (on_message d m σ) = σ ∧
  (operation (this σ) = "receive" → on_message d m σ = Ok () σ).
Proof.
  intros Hfull. unfold on_message. unfold_monad. simpl.
  rewrite (bool_decide_true _ Hfull).
  case_bool_decide; simpl; split; done.
Qed.

(** C4: a delivery that arrives in a receive run while [received] is below
    [messages] adds one to [received], takes one clock reading [rtime],
    writes the line [id,stime,rtime] with the id and the SendTime property
    of the message, and calls the termination routine exactly when the new
    count equals [messages]. *)
Theorem on_message_counts_and_reports (d : proton.delivery) (m : proton.message)
    (σ : state) :
  operation (this σ) = "receive" →
  INT_MIN ≤ received (this σ) →
  received (this σ) < messages (this σ) →
  messages (this σ) ≤ INT_MAX →
  let rtime := clock σ (ticks σ) in
  let line := inserted (proton.msg_id m) +:+ "," +:+
              inserted (proton.get_property "SendTime" m) +:+ "," +:+
              to_string rtime +:+ newline in
  let h' := with_received (received (this σ) + 1) (this σ) in
  let σ' := State h' (cout σ ++ [line]) (requests σ) (clock σ) (S (ticks σ)) in
  (received (this σ) + 1 = messages (this σ) → on_message d m σ = stop σ') ∧
  (received (this σ) + 1 ≠ messages (this σ) → on_message d m σ = Ok () σ').
Proof.
  intros Hop Hmin Hbelow Hmax rtime line h' σ'.
  assert (Hrun : on_message d m σ =
                 if bool_decide (received h' = messages h') then stop σ' else Ok () σ').
  { unfold on_message. unfold_monad. simpl.
    rewrite (bool_decide_true _ Hop). simpl.
    rewrite bool_decide_false by lia. simpl.
    rewrite int_succ_no_overflow by lia. fold h'. fold rtime. fold line. fold σ'.
    by destruct (bool_decide _). }
  rewrite Hrun. replace (messages h') with (messages (this σ)) by done.
  replace (received h') with (received (this σ) + 1) by done.
  split; intros Hlast.
  - by rewrite bool_decide_true.
  - by rewrite bool_decide_false.
Qed.

End deliveries.

Lemma on_message_ignores_late_delivery_witness :
  let σ := State (with_received 3
                    (new_handler "client" "active" "receive" "arrow" "localhost" "5672" "q"
                                 0 3 1 10 false))
                 ["1,5,6"; "2,6,7"; "3,7,8"] [] (λ _, 9) 3 in
  let m := proton.Message [] (proton.id_string "4") ∅ false in
  final (on_message (id_text := sample_id_text) (scalar_text := sample_scalar_text)
           (proton.Delivery 4) m σ) = σ.
Proof.
  intros σ m.
  apply (on_message_ignores_late_delivery (id_text := sample_id_text) (scalar_text := sample_scalar_text)
           (proton.Delivery 4) m σ).
  reflexivity.
Defined.

Lemma on_message_counts_and_reports_witness :
  let σ := boot (new_handler "client" "active" "receive" "arrow" "localhost" "5672" "q"
                             0 1 1 10 false) (λ _, 1700000000456) in
  let m := proton.Message [] (proton.id_string "1")
             {[ "SendTime" := proton.scalar_long 1700000000123 ]} false in
  cout (final (on_message (id_text := sample_id_text) (scalar_text := sample_scalar_text)
                 (proton.Delivery 1) m σ))
    = ["1,1700000000123,1700000000456" +:+ newline] ∧
  received (this (final (on_message (id_text := sample_id_text) (scalar_text := sample_scalar_text)
                           (proton.Delivery 1) m σ))) = 1.
Proof.
  intros σ m.
  destruct (on_message_counts_and_reports (id_text := sample_id_text) (scalar_text := sample_scalar_text)
              (proton.Delivery 1) m σ) as [Hlast _].
  - reflexivity.
  - unfold INT_MIN. simpl. lia.
  - simpl. lia.
  - unfold INT_MAX. simpl. lia.
  - rewrite Hlast by reflexivity. rewrite stop_run. split; vm_compute; reflexivity.
Defined.

(** ** The configuration is never written *)

Lemma send_loop_keeps_config (fuel : nat) : ∀ s σ,
  config (this (final (send_loop fuel s σ))) = config (this σ).
Proof.
  induction fuel as [|fuel IH]; intros s σ; [done|].
  simpl. unfold sender_send. unfold_monad. simpl.
  destruct (bool_decide _ && bool_decide _); [|done].
  by rewrite IH.
Qed.

Lemma send_loop_keeps_accepted (fuel : nat) : ∀ s σ,
  accepted (this (final (send_loop fuel s σ))) = accepted (this σ).
Proof.
  induction fuel as [|fuel IH]; intros s σ; [done|].
  simpl. unfold sender_send. unfold_monad. simpl.
  destruct (bool_decide _ && bool_decide _); [|done].
  by rewrite IH.
Qed.

Section configuration.

Context {id_text : Insertable proton.message_id} {scalar_text : Insertable proton.scalar}.

Lemma dispatch_keeps_config (e : event) (σ : state) :
  config (this (final (dispatch e σ))) = config (this σ).
Proof.
  destruct e as [c|c|r|s|t|d m|t|[]]; simpl.
  - unfold on_container_start, filler. unfold_monad. simpl.
    repeat (case_bool_decide; simpl); done.
  - unfold on_connection_open. unfold_monad. simpl.
    repeat (case_bool_decide; simpl); done.
  - done.
  - unfold on_sendable. unfold_monad. simpl.
    case_bool_decide; simpl; [|done]. apply send_loop_keeps_config.
  - unfold on_tracker_accept. unfold_monad. simpl.
    case_bool_decide; [|done]. by rewrite stop_run.
  - unfold on_message. unfold_monad. simpl.
    repeat (case_bool_decide; simpl); try done; by rewrite stop_run.
  - unfold on_transport_error. unfold_monad. simpl. by case_bool_decide.
  - by rewrite stop_run.
Qed.

Lemma run_cons (e : event) (evs : list event) (σ : state) :
  run (e :: evs) σ =
  match dispatch e σ with
  | Ok _ σ' => run evs σ'
  | Throw x σ' => Throw x σ'
  | Abort σ' => Abort σ'
  end.
Proof. reflexivity. Qed.

Lemma run_app (evs evs' : list event) : ∀ σ,
  run (evs ++ evs') σ =
  match run evs σ with
  | Ok _ σ' => run evs' σ'
  | Throw x σ' => Throw x σ'
  | Abort σ' => Abort σ'
  end.
Proof.
  induction evs as [|e evs IH]; intros σ; [done|].
  rewrite <- app_comm_cons, !run_cons.
  destruct (dispatch e σ) as [[] σ'| |]; [apply IH|done..].
Qed.

Lemma run_keeps_config (evs : list event) : ∀ σ,
  config (this (final (run evs σ))) = config (this σ).
Proof.
  induction evs as [|e evs IH]; intros σ; [done|].
  rewrite run_cons. pose proof (dispatch_keeps_config e σ) as He.
  destruct (dispatch e σ) as [[] σ'| |]; simpl in *; [|done..].
  by rewrite IH.
Qed.

Lemma container_run_keeps_config c evs σ :
  config (this (final (container_run c evs σ))) = config (this σ).
Proof.
  pose proof (run_keeps_config (ContainerStart c :: evs) σ) as Hrun.
  exact Hrun.
Qed.

(** ** Transport errors *)

(** C8: on a server a transport error changes nothing, writes nothing and
    the run goes on with the next event; on a client it ends the run, and
    the process writes one diagnostic line with the prefix
    [quiver-arrow: error: ] and exits with code 1. *)
Theorem transport_error_by_connection_mode (t : proton.transport) :
  (∀ σ rest, connection_mode (this σ) = "server" →
     on_transport_error t σ = Ok () σ ∧
     run (TransportError t :: rest) σ = run rest σ) ∧
  (∀ h clk c evs rest σ, connection_mode h = "client" →
     container_run c evs (boot h clk) = Ok () σ →
     main_run h clk c (evs ++ TransportError t :: rest) =
       ProcessEnd (Exit 1) (cout σ)
         ["quiver-arrow: error: " +:+ proton.error_what t +:+ newline]).
Proof.
  split.
  - intros σ rest Hserver.
    assert (Herr : on_transport_error t σ = Ok () σ).
    { unfold on_transport_error. unfold_monad. simpl.
      by rewrite bool_decide_false by (by intros []). }
    split; [done|]. by rewrite run_cons; simpl; rewrite Herr.
  - intros h clk c evs rest σ Hclient Hrun.
    pose proof (container_run_keeps_config c evs (boot h clk)) as Hcfg.
    rewrite Hrun in Hcfg. simpl in Hcfg.
    assert (Hmode : connection_mode (this σ) = "client").
    { unfold config in Hcfg. rewrite <- Hclient. congruence. }
    unfold main_run, container_run in *. unfold mbind, M_bind in *.
    destruct (on_container_start c (boot h clk)) as [[] σ0| |]; [|done..].
    rewrite run_app, Hrun, run_cons. simpl.
    unfold on_transport_error. unfold_monad. simpl.
    rewrite Hmode. by rewrite bool_decide_true.
Qed.

End configuration.

Lemma transport_error_by_connection_mode_witness :
  let t := proton.Transport "amqp:connection:framing-error: connection refused" in
  let c := proton.Container (proton.Connection 1) (proton.Listener 2) in
  let client := new_handler "client" "active" "send" "arrow" "localhost" "5672" "q" 0 3 1 10 false in
  let server := new_handler "server" "passive" "receive" "arrow" "localhost" "5672" "q" 0 3 1 10 false in
  main_run (id_text := sample_id_text) (scalar_text := sample_scalar_text)
    client (λ _, 0) c [TransportError t]
  = ProcessEnd (Exit 1) []
      ["quiver-arrow: error: amqp:connection:framing-error: connection refused" +:+ newline] ∧
  on_transport_error t (boot server (λ _, 0)) = Ok () (boot server (λ _, 0)).
Proof.
  intros t c client server.
  destruct (transport_error_by_connection_mode
              (id_text := sample_id_text) (scalar_text := sample_scalar_text) t)
    as [Hserver Hclient].
  split.
  - apply (Hclient client (λ _, 0) c [] []
             (final (container_run (id_text := sample_id_text)
                       (scalar_text := sample_scalar_text) c [] (boot client (λ _, 0)))));
      reflexivity.
  - apply (Hserver (boot server (λ _, 0)) []). reflexivity.
Defined.

(** ** Start-up and the duration timer *)

Lemma timers_app (cs cs' : list proton.command) : timers (cs ++ cs') = timers cs ++ timers cs'.
Proof. apply filter_app. Qed.

(** Start-up with a connection mode of client or server returns, and adds
    to the timers one, [seconds] seconds ahead and with the termination
    routine as its action, when [seconds > 0], and none otherwise. *)
Lemma on_container_start_timers (c : proton.container) (σ : state) :
  connection_mode (this σ) = "client" ∨ connection_mode (this σ) = "server" →
  0 ≤ body_size (this σ) →
  ∃ σ', on_container_start c σ = Ok () σ' ∧
    timers (requests σ') =
      timers (requests σ) ++
      if bool_decide (0 < seconds (this σ))
      then [proton.schedule (seconds (this σ) * proton.SECOND) proton.call_stop]
      else [].
Proof.
  intros Hmode Hsize.
  unfold on_container_start, filler. unfold_monad. simpl.
  rewrite (bool_decide_true _ Hsize). simpl.
  destruct Hmode as [Hmode|Hmode]; rewrite Hmode; simpl;
    destruct (bool_decide (0 < seconds (this σ))); simpl;
    eexists; (split; [reflexivity|]); simpl;
    rewrite ?timers_app; simpl; rewrite ?app_nil_r; done.
Qed.

(** ** The send loop *)

Lemma sent_message_with_sent (n : Z) (h : handler) (i stime : Z) :
  sent_message (with_sent n h) i stime = sent_message h i stime.
Proof. reflexivity. Qed.

Lemma sent_requests_with_sent (n : Z) (h : handler) clk (k : nat) : ∀ first t,
  sent_requests (with_sent n h) clk k first t = sent_requests h clk k first t.
Proof. induction k as [|k IH]; intros first t; simpl; [done|]. by rewrite IH. Qed.

Lemma sent_lines_app clk (k k' : nat) : ∀ first t,
  sent_lines clk (k + k') first t =
  sent_lines clk k first t ++ sent_lines clk k' (first + Z.of_nat k) (t + k).
Proof.
  induction k as [|k IH]; intros first t; simpl.
  - by rewrite Z.add_0_r, Nat.add_0_r.
  - rewrite IH. do 3 f_equal; lia.
Qed.

Lemma sent_requests_app h clk (k k' : nat) : ∀ first t,
  sent_requests h clk (k + k') first t =
  sent_requests h clk k first t ++ sent_requests h clk k' (first + Z.of_nat k) (t + k).
Proof.
  induction k as [|k IH]; intros first t; simpl.
  - by rewrite Z.add_0_r, Nat.add_0_r.
  - rewrite IH. do 3 f_equal; lia.
Qed.

Lemma sent_lines_length clk (k : nat) : ∀ first t, length (sent_lines clk k first t) = k.
Proof. induction k as [|k IH]; intros first t; simpl; [done|]. by rewrite IH. Qed.

Lemma sent_requests_length h clk (k : nat) : ∀ first t,
  length (sent_requests h clk k first t) = k.
Proof. induction k as [|k IH]; intros first t; simpl; [done|]. by rewrite IH. Qed.

Lemma sent_lines_lookup clk (k : nat) : ∀ first t (n : nat),
  (n < k)%nat →
  sent_lines clk k first t !! n = Some (sent_line (first + Z.of_nat n) (clk (t + n)%nat)).
Proof.
  induction k as [|k IH]; intros first t n Hn; [lia|].
  destruct n as [|n]; simpl.
  - by rewrite Z.add_0_r, Nat.add_0_r.
  - rewrite IH by lia. do 2 f_equal; [lia|]. f_equal. lia.
Qed.

Lemma sent_requests_lookup h clk (k : nat) : ∀ first t (n : nat),
  (n < k)%nat →
  sent_requests h clk k first t !! n =
    Some (proton.send (sent_message h (first + Z.of_nat n) (clk (t + n)%nat))).
Proof.
  induction k as [|k IH]; intros first t n Hn; [lia|].
  destruct n as [|n]; simpl.
  - by rewrite Z.add_0_r, Nat.add_0_r.
  - rewrite IH by lia. do 3 f_equal; [lia|]. f_equal. lia.
Qed.

Lemma sent_requests_all_sends h clk (k : nat) : ∀ first t,
  filter is_send (sent_requests h clk k first t) = sent_requests h clk k first t.
Proof.
  induction k as [|k IH]; intros first t; simpl; [done|].
  rewrite filter_cons_True by done. by rewrite IH.
Qed.

Lemma with_sent_same (h : handler) : with_sent (sent h) h = h.
Proof. by destruct h. Qed.

Lemma after_sends_0 (σ : state) : after_sends σ 0 = σ.
Proof.
  unfold after_sends. simpl.
  rewrite Z.add_0_r, Nat.add_0_r, !app_nil_r, with_sent_same. apply state_eta.
Qed.

Lemma after_sends_add (σ : state) (k k' : nat) :
  after_sends (after_sends σ k) k' = after_sends σ (k + k').
Proof.
  unfold after_sends. simpl.
  rewrite sent_requests_with_sent, sent_lines_app, sent_requests_app.
  rewrite <- !app_assoc.
  f_equal; [ unfold with_sent; simpl; f_equal; lia
           | do 2 f_equal; f_equal; lia
           | do 2 f_equal; f_equal; lia
           | lia ].
Qed.

(** One turn of the loop. *)
Lemma send_loop_turn (fuel : nat) (s : proton.sender) (σ : state) :
  0 < proton.credit s →
  INT_MIN ≤ sent (this σ) →
  sent (this σ) < messages (this σ) →
  messages (this σ) ≤ INT_MAX →
  send_loop (S fuel) s σ =
  send_loop fuel (proton.Sender (proton.credit s - 1)) (after_sends σ 1).
Proof.
  intros Hcredit Hmin Hroom Hmax. simpl. unfold sender_send. unfold_monad. simpl.
  rewrite !bool_decide_true by done. simpl.
  rewrite int_succ_no_overflow by lia.
  f_equal. unfold after_sends. simpl.
  f_equal; [|lia]. do 3 f_equal. unfold sent_message.
  by destruct (durable (this σ)).
Qed.

(** The loop stops at once without credit or without room. *)
Lemma send_loop_exit (fuel : nat) (s : proton.sender) (σ : state) :
  proton.credit s ≤ 0 ∨ messages (this σ) ≤ sent (this σ) →
  send_loop fuel s σ = Ok () σ.
Proof.
  intros Hstop. destruct fuel as [|fuel]; [done|].
  simpl. unfold_monad. simpl.
  destruct Hstop.
  - by rewrite (bool_decide_false (0 < _)) by lia.
  - rewrite (bool_decide_false (sent _ < _)) by lia. by rewrite andb_false_r.
Qed.

(** The loop takes as many turns as the credit and the room below
    [messages] allow, the fuel permitting. *)
Lemma send_loop_run (fuel : nat) : ∀ (s : proton.sender) (σ : state),
  INT_MIN ≤ sent (this σ) →
  messages (this σ) ≤ INT_MAX →
  send_loop fuel s σ =
  Ok () (after_sends σ (Nat.min fuel
           (Z.to_nat (Z.min (proton.credit s) (messages (this σ) - sent (this σ)))))).
Proof.
  induction fuel as [|fuel IH]; intros s σ Hmin Hmax.
  - by rewrite after_sends_0.
  - destruct (decide (0 < proton.credit s ∧ sent (this σ) < messages (this σ)))
      as [[Hcredit Hroom]|Hstop].
    + rewrite send_loop_turn by done.
      rewrite IH by (simpl; lia).
      rewrite after_sends_add. do 2 f_equal.
      unfold after_sends. cbn [this messages sent with_sent proton.credit]. lia.
    + rewrite send_loop_exit by lia.
      replace (Z.to_nat _) with 0%nat by lia.
      by rewrite Nat.min_0_r, after_sends_0.
Qed.

(** The credit at entry is fuel enough: more fuel changes nothing. *)
Lemma send_loop_fuel (fuel : nat) (s : proton.sender) (σ : state) :
  INT_MIN ≤ sent (this σ) →
  messages (this σ) ≤ INT_MAX →
  (Z.to_nat (proton.credit s) ≤ fuel)%nat →
  send_loop fuel s σ = send_loop (Z.to_nat (proton.credit s)) s σ.
Proof.
  intros Hmin Hmax Hfuel. rewrite !send_loop_run by done.
  do 2 f_equal. lia.
Qed.

Lemma on_sendable_run (s : proton.sender) (σ : state) :
  INT_MIN ≤ sent (this σ) →
  messages (this σ) ≤ INT_MAX →
  on_sendable s σ =
  if bool_decide (operation (this σ) = "send")
  then Ok () (after_sends σ
                (Z.to_nat (Z.min (proton.credit s) (messages (this σ) - sent (this σ)))))
  else Abort σ.
Proof.
  intros Hmin Hmax. unfold on_sendable. unfold_monad. simpl.
  case_bool_decide; [|done].
  rewrite send_loop_run by done. do 2 f_equal. lia.
Qed.

Lemma on_sendable_full (s : proton.sender) (σ : state) :
  sent (this σ) = messages (this σ) → final (on_sendable s σ) = σ.
Proof.
  intros Hfull. unfold on_sendable. unfold_monad. simpl.
  case_bool_decide; [|done]. rewrite send_loop_exit by lia. done.
Qed.

Lemma total_credit_nonneg (ss : list proton.sender) : 0 ≤ total_credit ss.
Proof. induction ss as [|s ss IH]; simpl; lia. Qed.

Section sending.

Context {id_text : Insertable proton.message_id} {scalar_text : Insertable proton.scalar}.

(** A run of sendable events in a send run: the credit offered is used
    up to the room left below [messages]. *)
Lemma run_sendable (ss : list proton.sender) : ∀ σ,
  operation (this σ) = "send" →
  INT_MIN ≤ sent (this σ) ≤ messages (this σ) →
  messages (this σ) ≤ INT_MAX →
  run (Sendable <$> ss) σ =
  Ok () (after_sends σ
           (Z.to_nat (Z.min (total_credit ss) (messages (this σ) - sent (this σ))))).
Proof.
  induction ss as [|s ss IH]; intros σ Hop Hsent Hmax.
  - simpl. replace (Z.to_nat _) with 0%nat by lia. by rewrite after_sends_0.
  - rewrite fmap_cons, run_cons. simpl.
    rewrite on_sendable_run by lia. rewrite (bool_decide_true _ Hop).
    pose proof (total_credit_nonneg ss).
    rewrite IH by (simpl; (done || lia)).
    rewrite after_sends_add. do 2 f_equal.
    unfold after_sends. cbn [this messages sent with_sent]. lia.
Qed.

(** Without the send operation the first sendable event fails the
    assertion, and nothing was sent. *)
Lemma run_sendable_final (ss : list proton.sender) (σ : state) :
  INT_MIN ≤ sent (this σ) ≤ messages (this σ) →
  messages (this σ) ≤ INT_MAX →
  ∃ k : nat, final (run (Sendable <$> ss) σ) = after_sends σ k ∧
             sent (this σ) + Z.of_nat k ≤ messages (this σ).
Proof.
  intros Hsent Hmax.
  destruct (decide (operation (this σ) = "send")) as [Hop|Hop].
  - rewrite run_sendable by done. eexists. split; [done|].
    pose proof (total_credit_nonneg ss). lia.
  - exists 0%nat. rewrite after_sends_0. split; [|lia].
    destruct ss as [|s ss]; [done|].
    rewrite fmap_cons, run_cons. simpl. unfold on_sendable. unfold_monad. simpl.
    by rewrite bool_decide_false.
Qed.

Lemma run_sendable_full (ss : list proton.sender) : ∀ σ,
  sent (this σ) = messages (this σ) → final (run (Sendable <$> ss) σ) = σ.
Proof.
  induction ss as [|s ss IH]; intros σ Hfull; [done|].
  rewrite fmap_cons, run_cons. simpl.
  pose proof (on_sendable_full s σ Hfull) as Hsame.
  destruct (on_sendable s σ) as [[] σ'| |]; simpl in Hsame; subst; [|done..].
  by apply IH.
Qed.

(** C1: starting with nothing sent and a valid message count, whatever
    credit the sendable events bring, the report lines written and the
    messages submitted never outnumber [messages]; and from a state with
    [sent = messages] further sendable events change nothing at all. *)
Theorem sends_never_exceed_message_count (h : handler) (clk : nat → Z) (t0 : nat)
    (ss : list proton.sender) :
  sent h = 0 →
  0 ≤ messages h ≤ INT_MAX →
  let σ := final (run (Sendable <$> ss) (State h [] [] clk t0)) in
  Z.of_nat (length (cout σ)) ≤ messages h ∧
  Z.of_nat (submitted σ) ≤ messages h ∧
  Z.of_nat (length (cout σ)) = sent (this σ) ∧
  Z.of_nat (submitted σ) = sent (this σ) ∧
  (∀ more σ', sent (this σ') = messages (this σ') →
     final (run (Sendable <$> more) σ') = σ').
Proof.
  intros Hzero Hcount σ.
  destruct (run_sendable_final ss (State h [] [] clk t0)) as (k & Hfinal & Hk);
    [simpl; unfold INT_MIN; lia | simpl; lia |].
  subst σ. rewrite Hfinal. unfold submitted, after_sends. simpl in *.
  rewrite sent_requests_all_sends, sent_lines_length, sent_requests_length.
  repeat split; try lia. apply run_sendable_full.
Qed.

(** C2: in a send run starting with nothing sent, the sendable events all
    return, and line number [n] of the output (counting from 1) is
    [n,stime], where [stime] is the clock reading taken for that message;
    the message submitted with it has the string [n] as its id and
    [stime] as its SendTime property.  As many lines are written as the
    credit offered allows, up to [messages]. *)
Theorem sent_lines_are_numbered_from_one (h : handler) (clk : nat → Z) (t0 : nat)
    (ss : list proton.sender) :
  operation h = "send" →
  sent h = 0 →
  0 ≤ messages h ≤ INT_MAX →
  ∃ σ, run (Sendable <$> ss) (State h [] [] clk t0) = Ok () σ ∧
    Z.of_nat (length (cout σ)) = Z.min (total_credit ss) (messages h) ∧
    sent (this σ) = Z.of_nat (length (cout σ)) ∧
    ∀ n : nat, (n < length (cout σ))%nat →
      cout σ !! n =
        Some (to_string (Z.of_nat n + 1) +:+ "," +:+
              to_string (clk (t0 + n)%nat) +:+ newline) ∧
      requests σ !! n =
        Some (proton.send
                (proton.Message (body h)
                   (proton.id_string (to_string (Z.of_nat n + 1)))
                   {[ "SendTime" := proton.scalar_long (clk (t0 + n)%nat) ]}
                   (durable h))).
Proof.
  intros Hop Hzero Hcount.
  rewrite run_sendable by (simpl; unfold INT_MIN; (done || lia)).
  eexists. split; [done|].
  unfold after_sends. simpl. rewrite sent_lines_length, Hzero.
  pose proof (total_credit_nonneg ss).
  repeat split; try lia.
  - rewrite sent_lines_lookup by done. unfold sent_line.
    by replace (0 + 1 + Z.of_nat n) with (Z.of_nat n + 1) by lia.
  - rewrite sent_requests_lookup by done. unfold sent_message.
    by replace (0 + 1 + Z.of_nat n) with (Z.of_nat n + 1) by lia.
Qed.

End sending.

Lemma sends_never_exceed_message_count_witness :
  let h := new_handler "client" "active" "send" "arrow" "localhost" "5672" "q" 0 3 1 10 false in
  let ss := [proton.Sender 2; proton.Sender 5; proton.Sender 1] in
  let σ := final (run (id_text := sample_id_text) (scalar_text := sample_scalar_text)
                    (Sendable <$> ss) (State h [] [] (λ n, 1000 + Z.of_nat n) 0)) in
  Z.of_nat (length (cout σ)) ≤ 3 ∧ Z.of_nat (submitted σ) ≤ 3.
Proof.
  intros h ss σ.
  destruct (sends_never_exceed_message_count (id_text := sample_id_text)
              (scalar_text := sample_scalar_text) h (λ n, 1000 + Z.of_nat n) 0%nat ss)
    as (Hlines & Hsubmitted & _).
  - reflexivity.
  - unfold INT_MAX. simpl. lia.
  - split; [exact Hlines | exact Hsubmitted].
Defined.

Lemma sent_lines_are_numbered_from_one_witness :
  let h := new_handler "client" "active" "send" "arrow" "localhost" "5672" "q" 0 3 1 10 false in
  let ss := [proton.Sender 2; proton.Sender 5] in
  ∃ σ, run (id_text := sample_id_text) (scalar_text := sample_scalar_text)
           (Sendable <$> ss) (State h [] [] (λ n, 1000 + Z.of_nat n) 0) = Ok () σ ∧
       cout σ !! 2%nat = Some ("3,1002" +:+ newline).
Proof.
  intros h ss.
  destruct (sent_lines_are_numbered_from_one (id_text := sample_id_text)
              (scalar_text := sample_scalar_text) h (λ n, 1000 + Z.of_nat n) 0%nat ss)
    as (σ & Hrun & Hcount & _ & Hline).
  - reflexivity.
  - reflexivity.
  - unfold INT_MAX. simpl. lia.
  - exists σ. split; [exact Hrun|].
    destruct (Hline 2%nat) as [Hthird _]; [|exact Hthird].
    change (Z.of_nat (length (cout σ)) = 3) in Hcount. lia.
Defined.

(** ** The counters over a whole run *)

Lemma int_succ_range (x : Z) : INT_MIN ≤ int_succ x ≤ INT_MAX.
Proof.
  unfold int_succ, wrap_int, INT_MIN, INT_MAX.
  pose proof (Z.mod_pos_bound (x + 1 + 2 ^ 31) (2 ^ 32)). lia.
Qed.

Section counters.

Context {id_text : Insertable proton.message_id} {scalar_text : Insertable proton.scalar}.

(** One event: the send and receive counters stay within bounds and do
    not go down, and an accept that confirms a send keeps [accepted]
    at or below [sent]. *)
Lemma dispatch_counters (e : event) (σ : state) :
  counters_bounded (this σ) →
  let σ' := final (dispatch e σ) in
  counters_bounded (this σ') ∧
  messages (this σ') = messages (this σ) ∧
  sent (this σ) ≤ sent (this σ') ∧
  received (this σ) ≤ received (this σ') ∧
  (confirms_a_send e σ → 0 ≤ accepted (this σ) ≤ sent (this σ) →
     accepted (this σ) ≤ accepted (this σ') ∧
     0 ≤ accepted (this σ') ≤ sent (this σ')).
Proof.
  intros (Hsent & Hreceived & Hmax). unfold counters_bounded.
  destruct e as [c|c|r|s|t|d m|t|[]]; simpl.
  - unfold on_container_start, filler. unfold_monad. simpl.
    repeat (case_bool_decide; simpl); lia.
  - unfold on_connection_open. unfold_monad. simpl.
    repeat (case_bool_decide; simpl); lia.
  - lia.
  - rewrite on_sendable_run by (unfold INT_MIN; lia).
    case_bool_decide; simpl; lia.
  - unfold on_tracker_accept. unfold_monad. simpl.
    assert (Hstep : accepted (this σ) < sent (this σ) → 0 ≤ accepted (this σ) →
                    int_succ (accepted (this σ)) = accepted (this σ) + 1).
    { intros. apply int_succ_no_overflow. unfold INT_MIN. lia. }
    case_bool_decide; [rewrite stop_run|]; simpl; (repeat split; try lia);
      intros Hconfirm Hacc; rewrite Hstep; lia.
  - unfold on_message. unfold_monad. simpl.
    case_bool_decide; simpl; [|lia].
    case_bool_decide; simpl; [lia|].
    rewrite int_succ_no_overflow by (unfold INT_MIN; lia).
    case_bool_decide; [rewrite stop_run|]; simpl; lia.
  - unfold on_transport_error. unfold_monad. simpl. case_bool_decide; simpl; lia.
  - rewrite stop_run. simpl. lia.
Qed.

Lemma run_counters (evs : list event) : ∀ σ,
  counters_bounded (this σ) →
  let σ' := final (run evs σ) in
  counters_bounded (this σ') ∧ messages (this σ') = messages (this σ).
Proof.
  induction evs as [|e evs IH]; intros σ Hσ; [done|].
  rewrite run_cons.
  destruct (dispatch_counters e σ Hσ) as (Hbounded & Hmessages & _).
  destruct (dispatch e σ) as [[] σ1| |]; simpl in *; [|done..].
  destruct (IH σ1 Hbounded) as [? Hsame]. split; [done|]. by rewrite Hsame.
Qed.

Lemma run_accepted (evs : list event) : ∀ σ,
  counters_bounded (this σ) →
  0 ≤ accepted (this σ) ≤ sent (this σ) →
  accepts_follow_sends evs σ →
  0 ≤ accepted (this (final (run evs σ))) ≤ sent (this (final (run evs σ))).
Proof.
  induction evs as [|e evs IH]; intros σ Hσ Hacc Hfollow; [done|].
  rewrite run_cons. destruct Hfollow as [Hconfirm Hrest].
  destruct (dispatch_counters e σ Hσ) as (Hbounded & _ & _ & _ & Haccepted).
  destruct (Haccepted Hconfirm Hacc) as [_ Hacc'].
  destruct (dispatch e σ) as [[] σ1| |]; simpl in *; [|done..].
  by apply IH.
Qed.

Lemma accepts_follow_sends_snoc (evs : list event) (e : event) : ∀ σ,
  accepts_follow_sends (evs ++ [e]) σ →
  accepts_follow_sends evs σ ∧
  (∀ σ', run evs σ = Ok () σ' → confirms_a_send e σ').
Proof.
  induction evs as [|e0 evs IH]; intros σ Hfollow.
  - destruct Hfollow as [Hconfirm _]. split; [done|].
    intros σ' Hrun. by injection Hrun as <-.
  - rewrite <- app_comm_cons in Hfollow. destruct Hfollow as [Hconfirm Hrest].
    rewrite run_cons. simpl.
    destruct (dispatch e0 σ) as [[] σ1| |]; [|done..].
    destruct (IH σ1 Hrest) as [Hevs Hlast]. done.
Qed.

End counters.

Section counter_claims.

Context {id_text : Insertable proton.message_id} {scalar_text : Insertable proton.scalar}.

Lemma run_single (e : event) (σ : state) : final (run [e] σ) = final (dispatch e σ).
Proof. rewrite run_cons. by destruct (dispatch e σ) as [[] σ'| |]. Qed.

(** One event adds at most one to [accepted] and never takes from it,
    short of the overflow of the [int]. *)
Lemma dispatch_accepted (e : event) (σ : state) :
  INT_MIN ≤ accepted (this σ) < INT_MAX →
  accepted (this σ) ≤ accepted (this (final (dispatch e σ))) ≤ accepted (this σ) + 1.
Proof.
  intros Hrange.
  destruct e as [c|c|r|s|t|d m|t|[]]; simpl.
  - unfold on_container_start, filler. unfold_monad. simpl.
    repeat (case_bool_decide; simpl); lia.
  - unfold on_connection_open. unfold_monad. simpl.
    repeat (case_bool_decide; simpl); lia.
  - lia.
  - unfold on_sendable. unfold_monad. simpl.
    case_bool_decide; simpl; [|lia]. rewrite send_loop_keeps_accepted. lia.
  - unfold on_tracker_accept. unfold_monad. simpl.
    rewrite int_succ_no_overflow by done.
    case_bool_decide; [rewrite stop_run|]; simpl; lia.
  - unfold on_message. unfold_monad. simpl.
    repeat (case_bool_decide; simpl); rewrite ?stop_run; simpl; lia.
  - unfold on_transport_error. unfold_monad. simpl. case_bool_decide; simpl; lia.
  - rewrite stop_run. simpl. lia.
Qed.

(** After [n] events [accepted] is at most [n] more than it was. *)
Lemma run_accepted_grows (evs : list event) : ∀ (σ : state) (n : Z),
  0 ≤ accepted (this σ) ≤ n →
  n + Z.of_nat (length evs) ≤ INT_MAX →
  accepted (this σ) ≤ accepted (this (final (run evs σ))) ≤ n + Z.of_nat (length evs).
Proof.
  induction evs as [|e evs IH]; intros σ n Hacc Hn; [simpl; lia|].
  simpl length in *. rewrite run_cons.
  pose proof (dispatch_accepted e σ) as Hstep.
  destruct (dispatch e σ) as [[] σ1| |]; cbn [final] in *;
    [|unfold INT_MIN in Hstep; lia..].
  specialize (IH σ1 (n + 1)). unfold INT_MIN in Hstep. lia.
Qed.

(** C3, amended: from fresh counters and a valid message count, under any
    sequence of events, [sent] and [received] never go down and never
    pass [messages]; [accepted] never goes down either, over any sequence
    of fewer than [INT_MAX] events, which the [int] counter cannot
    overflow; and [accepted] never passes [messages] as long as every
    accept confirmation answers a message that was sent and not yet
    confirmed. *)
Theorem counters_monotone_and_bounded (σ0 : state) (evs : list event) (e : event) :
  fresh (this σ0) →
  count_valid (this σ0) →
  let σ := final (run evs σ0) in
  let σ' := final (run (evs ++ [e]) σ0) in
  sent (this σ) ≤ sent (this σ') ≤ messages (this σ0) ∧
  received (this σ) ≤ received (this σ') ≤ messages (this σ0) ∧
  (Z.of_nat (length evs) < INT_MAX → accepted (this σ) ≤ accepted (this σ')) ∧
  (accepts_follow_sends (evs ++ [e]) σ0 →
     accepted (this σ) ≤ accepted (this σ') ≤ messages (this σ0)).
Proof.
  intros (Hsent & Hreceived & Haccepted) [Hcount Hmax] σ σ'.
  assert (Hσ0 : counters_bounded (this σ0)) by (unfold counters_bounded; lia).
  destruct (run_counters evs σ0 Hσ0) as [Hσ Hmessages]. fold σ in Hσ, Hmessages.
  assert (Hacc : accepts_follow_sends evs σ0 →
                 0 ≤ accepted (this σ) ≤ sent (this σ)).
  { intros Hfollow. apply run_accepted; [done|lia|done]. }
  assert (Hgrow : Z.of_nat (length evs) < INT_MAX →
                  0 ≤ accepted (this σ) < INT_MAX).
  { intros Hlen. pose proof (run_accepted_grows evs σ0 0) as Hg. fold σ in Hg. lia. }
  subst σ'. rewrite run_app. subst σ.
  destruct (run evs σ0) as [[] σ1| |] eqn:Hrun; cbn [final] in *;
    [|unfold counters_bounded in Hσ; split; [lia|]; split; [lia|];
      (split; [lia|]); intros Hfollow;
      apply accepts_follow_sends_snoc in Hfollow as [Hfollow _];
      specialize (Hacc Hfollow); lia ..].
  rewrite run_single.
  destruct (dispatch_counters e σ1 Hσ) as (Hσ' & Hsame & Hs & Hr & Ha).
  unfold counters_bounded in Hσ, Hσ'. rewrite <- Hmessages, <- Hsame.
  split; [lia|]. split; [lia|]. split.
  - intros Hlen. specialize (Hgrow Hlen).
    pose proof (dispatch_accepted e σ1) as Hstep. unfold INT_MIN in Hstep. lia.
  - intros Hfollow.
    apply accepts_follow_sends_snoc in Hfollow as [Hfollow Hlast].
    destruct (Ha (Hlast σ1 Hrun) (Hacc Hfollow)). lia.
Qed.

End counter_claims.

(** C3, as stated, fails for [accepted]: nothing in [on_tracker_accept]
    compares the counter with [messages] before adding one, so a second
    accept confirmation in a run of one message takes it to two. *)
Lemma accepted_can_pass_message_count :
  let h := new_handler "client" "active" "send" "arrow" "localhost" "5672" "q" 0 1 1 10 false in
  let evs := [Sendable (proton.Sender 1);
              TrackerAccept (proton.Tracker 1); TrackerAccept (proton.Tracker 1)] in
  let σ := final (run (id_text := sample_id_text) (scalar_text := sample_scalar_text)
                    evs (boot h (λ _, 0))) in
  messages (this σ) = 1 ∧ accepted (this σ) = 2 ∧
  ¬ accepted (this σ) ≤ messages (this σ).
Proof. repeat split; try reflexivity. vm_compute. intros Hle. by apply Hle. Qed.

Lemma counters_monotone_and_bounded_witness :
  let h := new_handler "client" "active" "send" "arrow" "localhost" "5672" "q" 0 2 1 10 false in
  let evs := [Sendable (proton.Sender 5); TrackerAccept (proton.Tracker 1)] in
  let e := TrackerAccept (proton.Tracker 2) in
  let σ' := final (run (id_text := sample_id_text) (scalar_text := sample_scalar_text)
                     (evs ++ [e]) (boot h (λ _, 0))) in
  sent (this σ') ≤ 2 ∧ received (this σ') ≤ 2 ∧ accepted (this σ') ≤ 2.
Proof.
  intros h evs e σ'.
  destruct (counters_monotone_and_bounded (id_text := sample_id_text)
              (scalar_text := sample_scalar_text) (boot h (λ _, 0)) evs e)
    as (Hsent & Hreceived & _ & Haccepted).
  - repeat split.
  - unfold count_valid, INT_MAX. simpl. lia.
  - split; [apply Hsent | split; [apply Hreceived | apply Haccepted]].
    vm_compute. repeat split.
Defined.

(** ** The decimal rendering on examples *)

Example to_string_examples :
  to_string 1 = "1" ∧ to_string 10 = "10" ∧ to_string 1000000 = "1000000" ∧
  to_string 0 = "0" ∧ to_string (-7) = "-7".
Proof. repeat split; reflexivity. Qed.

(** Distinct identifiers give distinct id strings. *)
Lemma to_string_inj (a b : Z) : to_string a = to_string b → a = b.
Proof. unfold to_string. apply (inj pretty). Qed.

(** * Further properties *)

(** ** [split] *)

Lemma getline_chars_shorter (delim : Ascii.ascii) (ss : string) :
  ss ≠ EmptyString →
  (String.length (getline_chars delim ss).2 < String.length ss)%nat.
Proof.
  induction ss as [|c ss IH]; intros Hne; [done|]. simpl.
  case_bool_decide; simpl; [lia|].
  destruct ss as [|c' ss']; [simpl; lia|].
  specialize (IH ltac:(done)).
  destruct (getline_chars delim (String c' ss')) as [elem rest]. simpl in *. lia.
Qed.

Lemma getline_chars_elem (delim : Ascii.ascii) (ss : string) :
  occurs delim (getline_chars delim ss).1 = false.
Proof.
  induction ss as [|c ss IH]; [done|]. simpl.
  case_bool_decide as Hc; [done|].
  destruct (getline_chars delim ss) as [elem rest]. simpl in *.
  by rewrite IH, bool_decide_false.
Qed.

(** What [getline] read and what it left make up the input again. *)
Lemma getline_chars_rebuild (delim : Ascii.ascii) (ss : string) :
  let '(elem, rest) := getline_chars delim ss in
  if occurs delim ss then ss = elem +:+ String delim rest
  else elem = ss ∧ rest = EmptyString.
Proof.
  induction ss as [|c ss IH]; [done|]. simpl.
  case_bool_decide as Hc; simpl; [by subst|].
  destruct (getline_chars delim ss) as [elem rest].
  destruct (occurs delim ss); simpl; [by rewrite IH|].
  destruct IH as [-> ->]. done.
Qed.

Lemma getline_chars_token (delim : Ascii.ascii) (t rest : string) :
  occurs delim t = false →
  getline_chars delim (t +:+ String delim rest) = (t, rest).
Proof.
  induction t as [|c t IH]; simpl; intros Ht.
  - by rewrite bool_decide_true.
  - apply orb_false_iff in Ht as [Hc Ht]. apply bool_decide_eq_false in Hc.
    rewrite bool_decide_false by done. by rewrite IH.
Qed.

Lemma getline_chars_last (delim : Ascii.ascii) (t : string) :
  occurs delim t = false → getline_chars delim t = (t, EmptyString).
Proof.
  induction t as [|c t IH]; simpl; intros Ht; [done|].
  apply orb_false_iff in Ht as [Hc Ht]. apply bool_decide_eq_false in Hc.
  rewrite bool_decide_false by done. by rewrite IH.
Qed.

Lemma split_loop_elems (fuel : nat) (delim : Ascii.ascii) : ∀ ss elems,
  split_loop fuel delim ss elems = elems ++ split_loop fuel delim ss [].
Proof.
  induction fuel as [|fuel IH]; intros ss elems; simpl; [by rewrite app_nil_r|].
  destruct (getline delim ss) as [[elem rest]|]; [|by rewrite app_nil_r].
  rewrite (IH rest (elems ++ [elem])), (IH rest [elem]).
  by rewrite <- app_assoc.
Qed.

(** The length of the input is fuel enough for the loop of [split]. *)
Lemma split_loop_fuel (delim : Ascii.ascii) (fuel : nat) : ∀ fuel' ss elems,
  (String.length ss ≤ fuel)%nat → (String.length ss ≤ fuel')%nat →
  split_loop fuel delim ss elems = split_loop fuel' delim ss elems.
Proof.
  induction fuel as [|fuel IH]; intros fuel' ss elems Hfuel Hfuel'.
  - destruct ss; [|simpl in Hfuel; lia]. by destruct fuel'.
  - destruct ss as [|c ss]; [by destruct fuel'|].
    destruct fuel' as [|fuel']; [simpl in Hfuel'; lia|].
    pose proof (getline_chars_shorter delim (String c ss) ltac:(done)) as Hshort.
    cbn [split_loop getline].
    destruct (getline_chars delim (String c ss)) as [elem rest].
    simpl in Hshort, Hfuel, Hfuel'. apply IH; lia.
Qed.

(** One turn of [split] on an input that is not empty. *)
Lemma split_step (delim : Ascii.ascii) (ss : string) :
  ss ≠ EmptyString →
  split ss delim =
  (getline_chars delim ss).1 :: split (getline_chars delim ss).2 delim.
Proof.
  intros Hne. unfold split.
  pose proof (getline_chars_shorter delim ss Hne) as Hshort.
  destruct ss as [|c ss]; [done|].
  cbn [String.length split_loop getline].
  destruct (getline_chars delim (String c ss)) as [elem rest].
  rewrite split_loop_elems. simpl in *.
  f_equal. apply split_loop_fuel; lia.
Qed.

(** No element of [split] contains the delimiter. *)
Theorem split_elements_have_no_delimiter (s : string) (delim : Ascii.ascii) (elem : string) :
  elem ∈ split s delim → occurs delim elem = false.
Proof.
  unfold split.
  assert (Hloop : ∀ fuel ss elems,
            Forall (λ e, occurs delim e = false) elems →
            Forall (λ e, occurs delim e = false) (split_loop fuel delim ss elems)).
  { induction fuel as [|fuel IH]; intros ss elems Helems; simpl; [done|].
    destruct ss as [|c ss]; [done|]. cbn [getline].
    pose proof (getline_chars_elem delim (String c ss)) as Helem.
    destruct (getline_chars delim (String c ss)) as [e rest].
    apply IH. apply Forall_app. split; [done|]. by apply Forall_singleton. }
  intros Hin.
  specialize (Hloop (String.length s) s [] (Forall_nil_2 _)).
  rewrite Forall_forall in Hloop. by apply Hloop.
Qed.

Lemma append_delimiter_nonempty (t rest : string) (delim : Ascii.ascii) :
  t +:+ String delim rest ≠ EmptyString.
Proof. by destruct t. Qed.

(** Tokens without the delimiter, the last of them not empty, come back
    from [split] as they were joined. *)
Theorem split_join (delim : Ascii.ascii) (ts : list string) :
  Forall (λ t, occurs delim t = false) ts →
  last ts ≠ Some EmptyString →
  split (join delim ts) delim = ts.
Proof.
  induction ts as [|t ts IH]; intros Hts Hlast; [done|].
  apply Forall_cons in Hts as [Ht Hts].
  destruct ts as [|t' ts].
  - simpl in *. destruct t as [|c t]; [done|].
    rewrite split_step by done. by rewrite getline_chars_last.
  - change (join delim (t :: t' :: ts))
      with (t +:+ String delim (join delim (t' :: ts))).
    rewrite split_step by apply append_delimiter_nonempty.
    rewrite getline_chars_token by done. cbn [fst snd].
    f_equal. by apply IH.
Qed.

Lemma split_join_witness :
  split (join "," ["x"; ""; "durable"]) "," = ["x"; ""; "durable"].
Proof. apply split_join; [repeat constructor | discriminate]. Defined.

Lemma ends_with_append (delim c : Ascii.ascii) (e rest : string) :
  ends_with delim (e +:+ String c rest) = ends_with delim (String c rest).
Proof.
  induction e as [|a e IH]; [done|].
  change (String a e +:+ String c rest) with (String a (e +:+ String c rest)).
  rewrite <- IH. cbn [ends_with].
  destruct (e +:+ String c rest) eqn:He; [|done].
  by destruct e.
Qed.

Lemma ends_with_occurs (delim : Ascii.ascii) (s : string) :
  occurs delim s = false → ends_with delim s = false.
Proof.
  induction s as [|c s IH]; [done|]. simpl. intros Hs.
  apply orb_false_iff in Hs as [Hc Hs]. destruct s; [done|]. by apply IH.
Qed.

Lemma append_assoc_delimiter (e rest tail : string) (c : Ascii.ascii) :
  (e +:+ String c rest) +:+ tail = e +:+ String c (rest +:+ tail).
Proof.
  induction e as [|a e IH]; [done|].
  change (String a ((e +:+ String c rest) +:+ tail) =
          String a (e +:+ String c (rest +:+ tail))).
  by rewrite IH.
Qed.

(** [split] loses nothing but one delimiter at the end of the input:
    its elements, each followed by the delimiter, spell the input again,
    with a delimiter added at the end when the input has none there. *)
Theorem split_spells_input (delim : Ascii.ascii) (s : string) :
  terminated delim (split s delim) =
  match s with
  | EmptyString => EmptyString
  | _ => if ends_with delim s then s else s +:+ String delim EmptyString
  end.
Proof.
  remember (String.length s) as n eqn:Hn.
  revert s Hn. induction n as [n IH] using lt_wf_ind. intros s Hn.
  destruct s as [|c s]; [done|].
  rewrite split_step by done.
  pose proof (getline_chars_shorter delim (String c s) ltac:(done)) as Hshort.
  pose proof (getline_chars_rebuild delim (String c s)) as Hrebuild.
  pose proof (getline_chars_elem delim (String c s)) as Helem.
  destruct (getline_chars delim (String c s)) as [elem rest].
  cbn [fst snd terminated] in *.
  rewrite (IH (String.length rest)) by (done || lia).
  destruct (occurs delim (String c s)) eqn:Hoccurs.
  - rewrite Hrebuild, ends_with_append.
    destruct rest as [|c' rest].
    + cbn [ends_with]. by rewrite bool_decide_true.
    + change (ends_with delim (String delim (String c' rest)))
        with (ends_with delim (String c' rest)).
      destruct (ends_with delim (String c' rest)); [done|].
      by rewrite append_assoc_delimiter.
  - destruct Hrebuild as [-> ->]. by rewrite ends_with_occurs.
Qed.

(** ** The arguments of [main] *)

Lemma any_durable_elem (flags : list string) :
  any_durable flags = true ↔ "durable" ∈ flags.
Proof.
  unfold any_durable. rewrite existsb_exists. split.
  - intros (s & Hin & Hs). apply bool_decide_eq_true in Hs as ->.
    by apply list_elem_of_In.
  - intros Hin. exists "durable". split; [by apply list_elem_of_In|].
    by apply bool_decide_eq_true.
Qed.

Section arguments.

Context {id_text : Insertable proton.message_id} {scalar_text : Insertable proton.scalar}.
Variable atoi : string → Z.
Variables PN_VERSION_MAJOR PN_VERSION_MINOR PN_VERSION_POINT : Z.

Lemma handler_of_argv_fields (argv : list string) (h : handler) :
  handler_of_argv atoi argv = Some h →
  ∃ mode size flags,
    argv !! 1%nat = Some mode ∧ argv !! 10%nat = Some size ∧
    argv !! 13%nat = Some flags ∧
    connection_mode h = mode ∧ body_size h = atoi size ∧
    durable h = any_durable (split flags ",") ∧
    connection h = None ∧ listener h = None ∧
    sent h = 0 ∧ received h = 0 ∧ accepted h = 0.
Proof.
  unfold handler_of_argv. intros Hh.
  repeat match type of Hh with
         | context [argv !! ?i] =>
           destruct (argv !! i) eqn:?; simpl in Hh; [|discriminate]
         end.
  injection Hh as <-. eexists _, _, _. repeat split; reflexivity.
Qed.

(** The handler is durable exactly when [durable] is one of the tokens of
    the flags argument. *)
Theorem durable_flag_is_a_token (argv : list string) (h : handler) (ts : list string) :
  handler_of_argv atoi argv = Some h →
  argv !! 13%nat = Some (join "," ts) →
  Forall (λ t, occurs "," t = false) ts →
  last ts ≠ Some EmptyString →
  durable h = true ↔ "durable" ∈ ts.
Proof.
  intros Hh Hflags Hts Hlast.
  destruct (handler_of_argv_fields argv h Hh)
    as (mode & size & flags & _ & _ & Hflags' & _ & _ & Hdurable & _).
  rewrite Hflags in Hflags'. injection Hflags' as <-.
  rewrite Hdurable, split_join by done. apply any_durable_elem.
Qed.

End arguments.

Lemma durable_flag_is_a_token_witness :
  let argv := ["arrow"; "client"; "active"; "send"; "id"; "localhost"; "5672"; "q";
               "0"; "2"; "3"; "10"; "0"; "peer-to-peer,durable"] in
  ∃ h, handler_of_argv sample_atoi argv = Some h ∧ durable h = true.
Proof.
  intros argv. eexists. split; [reflexivity|].
  apply (durable_flag_is_a_token sample_atoi argv _ ["peer-to-peer"; "durable"]).
  - reflexivity.
  - reflexivity.
  - repeat constructor.
  - discriminate.
  - apply list_elem_of_In. right. left. reflexivity.
Defined.

Lemma split_elements_have_no_delimiter_witness :
  occurs "," "durable" = false.
Proof.
  apply (split_elements_have_no_delimiter "x,durable," "," "durable").
  vm_compute. apply list_elem_of_In. right. left. reflexivity.
Defined.

(** ** Runs of deliveries and of accept confirmations *)

Lemma with_received_same (h : handler) : with_received (received h) h = h.
Proof. by destruct h. Qed.

Lemma with_accepted_same (h : handler) : with_accepted (accepted h) h = h.
Proof. by destruct h. Qed.

Section completion.

Context {id_text : Insertable proton.message_id} {scalar_text : Insertable proton.scalar}.

(** One delivery below the count. *)
Lemma on_message_run (d : proton.delivery) (m : proton.message) (σ : state) :
  operation (this σ) = "receive" →
  INT_MIN ≤ received (this σ) →
  received (this σ) < messages (this σ) →
  messages (this σ) ≤ INT_MAX →
  on_message d m σ =
  Ok () (State (with_received (received (this σ) + 1) (this σ))
               (cout σ ++ [received_line m (clock σ (ticks σ))])
               (requests σ ++
                  if bool_decide (received (this σ) + 1 = messages (this σ))
                  then stop_requests (this σ) else [])
               (clock σ) (S (ticks σ))).
Proof.
  intros Hop Hmin Hbelow Hmax. unfold on_message. unfold_monad. simpl.
  rewrite (bool_decide_true _ Hop). simpl.
  rewrite bool_decide_false by lia. simpl.
  rewrite int_succ_no_overflow by lia.
  case_bool_decide; [by rewrite stop_run|]. by rewrite app_nil_r.
Qed.

Lemma on_message_full (d : proton.delivery) (m : proton.message) (σ : state) :
  operation (this σ) = "receive" →
  received (this σ) = messages (this σ) →
  on_message d m σ = Ok () σ.
Proof.
  intros Hop Hfull. unfold on_message. unfold_monad. simpl.
  by rewrite (bool_decide_true _ Hop), (bool_decide_true _ Hfull).
Qed.

(** In a receive run, of any number of deliveries the first
    [messages - received] are counted and reported, in their order and each
    with its own clock reading, and the rest are dropped; the termination
    routine is called once, by the delivery that completes the count, and
    never when the count was complete before. *)
Theorem deliveries_are_reported_up_to_the_count
    (dms : list (proton.delivery * proton.message)) : ∀ σ : state,
  operation (this σ) = "receive" →
  0 ≤ received (this σ) ≤ messages (this σ) →
  messages (this σ) ≤ INT_MAX →
  let k := Nat.min (length dms) (Z.to_nat (messages (this σ) - received (this σ))) in
  run (delivered <$> dms) σ =
  Ok () (State (with_received (received (this σ) + Z.of_nat k) (this σ))
               (cout σ ++ received_lines (clock σ) (take k (dms.*2)) (ticks σ))
               (requests σ ++
                  if bool_decide ((0 < k)%nat ∧ received (this σ) + Z.of_nat k = messages (this σ))
                  then stop_requests (this σ) else [])
               (clock σ) (ticks σ + k)).
Proof.
  induction dms as [|[d m] dms IH]; intros σ Hop Hreceived Hmax k.
  - subst k. simpl.
    rewrite Z.add_0_r, Nat.add_0_r, !app_nil_r, with_received_same.
    by rewrite state_eta.
  - rewrite fmap_cons, run_cons. cbn [delivered dispatch fst snd].
    destruct (decide (received (this σ) = messages (this σ))) as [Hfull|Hbelow].
    + rewrite on_message_full by done.
      rewrite IH by done. subst k. cbn zeta.
      replace (Z.to_nat (messages (this σ) - received (this σ))) with 0%nat by lia.
      by rewrite !Nat.min_0_r.
    + rewrite on_message_run by (done || (unfold INT_MIN; lia)).
      rewrite IH by (simpl; (done || lia)). subst k.
      cbn [this cout requests clock ticks messages received with_received].
      set (k1 := Nat.min (length dms)
                   (Z.to_nat (messages (this σ) - (received (this σ) + 1)))).
      replace (Nat.min (length ((d, m) :: dms))
                 (Z.to_nat (messages (this σ) - received (this σ))))
        with (S k1) by (subst k1; simpl length; lia).
      rewrite fmap_cons. cbn [take received_lines snd].
      rewrite <- !app_assoc. cbn [app].
      do 2 f_equal.
      * unfold with_received. simpl. f_equal. lia.
      * f_equal. repeat case_bool_decide; rewrite ?app_nil_r; (done || lia).
      * lia.
Qed.

(** A run of accept confirmations, in closed form. *)
Lemma run_accepts (ts : list proton.tracker) : ∀ σ : state,
  INT_MIN ≤ accepted (this σ) →
  accepted (this σ) + Z.of_nat (length ts) ≤ INT_MAX →
  run (TrackerAccept <$> ts) σ =
  Ok () (State (with_accepted (accepted (this σ) + Z.of_nat (length ts)) (this σ))
               (cout σ)
               (requests σ ++
                  if bool_decide (accepted (this σ) < messages (this σ)
                                  ≤ accepted (this σ) + Z.of_nat (length ts))
                  then stop_requests (this σ) else [])
               (clock σ) (ticks σ)).
Proof.
  induction ts as [|t ts IH]; intros σ Hmin Hmax.
  - simpl. rewrite bool_decide_false by lia.
    by rewrite Z.add_0_r, app_nil_r, with_accepted_same, state_eta.
  - rewrite fmap_cons, run_cons. cbn [dispatch].
    simpl length in Hmax.
    assert (Hone : on_tracker_accept t σ =
              Ok () (State (with_accepted (accepted (this σ) + 1) (this σ)) (cout σ)
                       (requests σ ++
                          if bool_decide (accepted (this σ) + 1 = messages (this σ))
                          then stop_requests (this σ) else [])
                       (clock σ) (ticks σ))).
    { unfold on_tracker_accept. unfold_monad. simpl.
      rewrite int_succ_no_overflow by lia.
      case_bool_decide; [by rewrite stop_run|]. by rewrite app_nil_r. }
    rewrite Hone, IH by (simpl; lia).
    cbn [this cout requests clock ticks messages accepted with_accepted].
    rewrite <- !app_assoc. do 2 f_equal.
    + unfold with_accepted. simpl. f_equal. lia.
    + f_equal. simpl length.
      repeat case_bool_decide; rewrite ?app_nil_r; (done || lia).
Qed.

End completion.

(** ** What the callbacks leave alone *)

(** The send loop returns, changes no handler field but [sent], and
    requests nothing but sends of messages with the handler's body and
    durability. *)
Lemma send_loop_frame (fuel : nat) : ∀ (s : proton.sender) (σ : state),
  ∃ σ' new,
    send_loop fuel s σ = Ok () σ' ∧
    this σ' = with_sent (sent (this σ')) (this σ) ∧
    requests σ' = requests σ ++ new ∧
    Forall (λ r, is_send r = true ∧ carries (this σ) r) new.
Proof.
  induction fuel as [|fuel IH]; intros s σ.
  - exists σ, []. rewrite app_nil_r, with_sent_same. done.
  - simpl. unfold sender_send. unfold_monad. simpl.
    destruct (bool_decide _ && bool_decide _).
    + match goal with
      | |- context [send_loop fuel ?s1 ?σ1] => destruct (IH s1 σ1) as (σ' & new & Hrun & Hthis & Hreq & Hnew)
      end.
      simpl in *. eexists σ', (_ :: new). rewrite Hrun.
      split; [done|]. split; [by rewrite Hthis at 1|].
      split; [by rewrite Hreq, <- app_assoc|].
      constructor; [|done]. split; [done|]. simpl.
      by destruct (durable (this σ)).
    + exists σ, []. rewrite app_nil_r, with_sent_same. done.
Qed.

Section frames.

Context {id_text : Insertable proton.message_id} {scalar_text : Insertable proton.scalar}.

(** What one event adds to the requests. *)
Lemma dispatch_requests (e : event) (σ : state) :
  ∃ new, requests (final (dispatch e σ)) = requests σ ++ new ∧
         Forall (carries (this σ)) new ∧
         (connection (this σ) = None → Forall (λ r, is_close r = false) new).
Proof.
  assert (Hstop : ∀ h1,
            Forall (carries (this σ)) (stop_requests h1) ∧
            (connection h1 = None →
               Forall (λ r, is_close r = false) (stop_requests h1))).
  { intros h1. unfold stop_requests.
    destruct (connection h1); case_bool_decide; simpl;
      split; try discriminate; repeat constructor. }
  destruct e as [c|c|r|s|t|d m|t|[]]; simpl.
  - unfold on_container_start, filler. unfold_monad. simpl.
    repeat (case_bool_decide; simpl);
      try (exists []; rewrite app_nil_r; by repeat constructor);
      rewrite <- ?app_assoc; eexists; (split; [reflexivity|]);
      split; try intros _; by repeat constructor.
  - unfold on_connection_open. unfold_monad. simpl.
    repeat (case_bool_decide; simpl);
      try (exists []; rewrite app_nil_r; by repeat constructor);
      eexists; (split; [reflexivity|]); split; try intros _; by repeat constructor.
  - eexists; (split; [reflexivity|]); split; try intros _; by repeat constructor.
  - unfold on_sendable. unfold_monad. simpl.
    case_bool_decide; simpl; [|exists []; rewrite app_nil_r; by repeat constructor].
    destruct (send_loop_frame (Z.to_nat (proton.credit s)) s σ)
      as (σ' & new & Hrun & _ & Hreq & Hnew).
    rewrite Hrun. exists new. split; [done|]. split.
    + eapply Forall_impl; [exact Hnew|]. by intros r [_ ?].
    + intros _. eapply Forall_impl; [exact Hnew|]. intros r [Hsend _]. by destruct r.
  - unfold on_tracker_accept. unfold_monad. simpl.
    case_bool_decide; [rewrite stop_run|]; simpl.
    + eexists. split; [reflexivity|].
      match goal with
      | |- context [stop_requests ?h1] => destruct (Hstop h1) as [? ?]
      end. done.
    + exists []. rewrite app_nil_r. by repeat constructor.
  - unfold on_message. unfold_monad. simpl.
    case_bool_decide; simpl; [|exists []; rewrite app_nil_r; by repeat constructor].
    case_bool_decide; simpl; [exists []; rewrite app_nil_r; by repeat constructor|].
    case_bool_decide; [rewrite stop_run|]; simpl.
    + eexists. split; [reflexivity|].
      match goal with
      | |- context [stop_requests ?h1] => destruct (Hstop h1) as [? ?]
      end. done.
    + exists []. rewrite app_nil_r. by repeat constructor.
  - unfold on_transport_error. unfold_monad. simpl.
    case_bool_decide; simpl; exists []; rewrite app_nil_r; by repeat constructor.
  - rewrite stop_run. simpl. eexists. split; [reflexivity|].
    destruct (Hstop (this σ)) as [? ?]. done.
Qed.

End frames.

Lemma filter_none {A} (P : A → bool) (l : list A) :
  Forall (λ x, P x = false) l → filter P l = [].
Proof.
  induction 1 as [|x l Hx _ IH]; [done|].
  rewrite filter_cons_False by (rewrite Hx; intros []). exact IH.
Qed.

Lemma carries_same (h h' : handler) (r : proton.command) :
  body h = body h' → durable h = durable h' → carries h r → carries h' r.
Proof. intros Hbody Hdurable. destruct r; simpl; try done. by rewrite Hbody, Hdurable. Qed.

Section frames_of_runs.

Context {id_text : Insertable proton.message_id} {scalar_text : Insertable proton.scalar}.

(** Only start-up writes the body, and in active mode only a client's
    start-up writes the connection reference. *)
Lemma dispatch_keeps_handles (e : event) (σ : state) :
  (is_start e = false → body (this (final (dispatch e σ))) = body (this σ)) ∧
  (channel_mode (this σ) = "active" → connection_mode (this σ) ≠ "client" →
     connection (this (final (dispatch e σ))) = connection (this σ)).
Proof.
  destruct e as [c|c|r|s|t|d m|t|[]]; simpl.
  - split; [done|]. intros _ Hmode.
    unfold on_container_start, filler. unfold_monad. simpl.
    rewrite (bool_decide_false _ Hmode).
    repeat (case_bool_decide; simpl); done.
  - unfold on_connection_open. unfold_monad. simpl. split.
    + intros _. repeat (case_bool_decide; simpl); done.
    + intros Hactive _. rewrite (bool_decide_true _ Hactive).
      repeat (case_bool_decide; simpl); done.
  - done.
  - unfold on_sendable. unfold_monad. simpl.
    case_bool_decide; simpl; [|done].
    destruct (send_loop_frame (Z.to_nat (proton.credit s)) s σ)
      as (σ' & new & Hrun & Hthis & _).
    rewrite Hrun. simpl. rewrite Hthis. done.
  - unfold on_tracker_accept. unfold_monad. simpl.
    case_bool_decide; [rewrite stop_run|]; done.
  - unfold on_message. unfold_monad. simpl.
    repeat (case_bool_decide; simpl); rewrite ?stop_run; done.
  - unfold on_transport_error. unfold_monad. simpl. by case_bool_decide.
  - by rewrite stop_run.
Qed.

(** In active mode nothing but a client's start-up stores a connection, so
    a handler that runs as server in active mode never holds one: whatever
    the events, the termination routine included, it never asks the engine
    to close a connection. *)
Theorem active_server_never_closes_a_connection (evs : list event) : ∀ σ : state,
  channel_mode (this σ) = "active" →
  connection_mode (this σ) ≠ "client" →
  connection (this σ) = None →
  connection (this (final (run evs σ))) = None ∧
  filter is_close (requests (final (run evs σ))) = filter is_close (requests σ).
Proof.
  induction evs as [|e evs IH]; intros σ Hactive Hmode Hnone; [done|].
  rewrite run_cons.
  destruct (dispatch_requests e σ) as (new & Hreq & _ & Hclose).
  destruct (dispatch_keeps_handles e σ) as [_ Hconn].
  pose proof (dispatch_keeps_config e σ) as Hcfg.
  specialize (Hconn Hactive Hmode). specialize (Hclose Hnone).
  assert (Hfilter : filter is_close (requests (final (dispatch e σ))) =
                    filter is_close (requests σ)).
  { by rewrite Hreq, filter_app, (filter_none _ new), app_nil_r. }
  assert (Hnone' : connection (this (final (dispatch e σ))) = None) by congruence.
  destruct (dispatch e σ) as [[] σ1| |]; simpl in *; [|done..].
  unfold config in Hcfg.
  destruct (IH σ1) as [? Hrest]; [congruence..|].
  split; [done|]. by rewrite Hrest.
Qed.

Lemma run_carries (evs : list event) : ∀ σ : state,
  Forall (λ e, is_start e = false) evs →
  Forall (carries (this σ)) (requests σ) →
  Forall (carries (this σ)) (requests (final (run evs σ))).
Proof.
  induction evs as [|e evs IH]; intros σ Hevs Hσ; [done|].
  apply Forall_cons in Hevs as [He Hevs].
  rewrite run_cons.
  destruct (dispatch_requests e σ) as (new & Hreq & Hnew & _).
  destruct (dispatch_keeps_handles e σ) as [Hbody _]. specialize (Hbody He).
  pose proof (dispatch_keeps_config e σ) as Hcfg. unfold config in Hcfg.
  assert (Hdurable : durable (this (final (dispatch e σ))) = durable (this σ)) by congruence.
  assert (Hall : Forall (carries (this σ)) (requests (final (dispatch e σ)))).
  { rewrite Hreq. apply Forall_app. done. }
  destruct (dispatch e σ) as [[] σ1| |]; simpl in *; [|done..].
  assert (Hσ1 : Forall (carries (this σ1)) (requests σ1)).
  { eapply Forall_impl; [exact Hall|]. intros r. by apply carries_same. }
  specialize (IH σ1 Hevs Hσ1).
  eapply Forall_impl; [exact IH|]. intros r. by apply carries_same.
Qed.

(** Every message a run submits has the filler body made at start-up,
    [body_size] bytes [x], and the durability of the configuration. *)
Theorem submitted_messages_carry_the_filler (h : handler) (clk : nat → Z)
    (c : proton.container) (evs : list event) (m : proton.message) :
  Forall (λ e, is_start e = false) evs →
  proton.send m ∈ requests (final (container_run c evs (boot h clk))) →
  proton.msg_body m = replicate (Z.to_nat (body_size h)) Byte.x78 ∧
  length (proton.msg_body m) = Z.to_nat (body_size h) ∧
  proton.msg_durable m = durable h.
Proof.
  intros Hevs Hin.
  assert (Hstart : ∀ σ1, on_container_start c (boot h clk) = Ok () σ1 →
            body (this σ1) = replicate (Z.to_nat (body_size h)) Byte.x78 ∧
            durable (this σ1) = durable h ∧
            Forall (carries (this σ1)) (requests σ1)).
  { unfold on_container_start, filler. unfold_monad. simpl. intros σ1.
    repeat (case_bool_decide; simpl); intros Hσ1; try discriminate;
      injection Hσ1 as <-; simpl; repeat split; by repeat constructor. }
  assert (Hfail : ∀ σ1, final (on_container_start c (boot h clk)) = σ1 →
            returns (on_container_start c (boot h clk)) = false →
            Forall (λ r, is_send r = false) (requests σ1)).
  { unfold on_container_start, filler. unfold_monad. simpl. intros σ1.
    repeat (case_bool_decide; simpl); intros <-; try discriminate; intros _;
      simpl; by repeat constructor. }
  unfold container_run, mbind, M_bind in Hin.
  destruct (on_container_start c (boot h clk)) as [[] σ1|x σ1|σ1] eqn:Hrun.
  - destruct (Hstart σ1 eq_refl) as (Hbody & Hdurable & Hσ1).
    pose proof (run_carries evs σ1 Hevs Hσ1) as Hall.
    rewrite Forall_forall in Hall. specialize (Hall _ Hin). simpl in Hall.
    destruct Hall as [Hb Hd]. rewrite Hb, Hd, Hbody, length_replicate. done.
  - specialize (Hfail σ1 eq_refl eq_refl). rewrite Forall_forall in Hfail.
    by specialize (Hfail _ Hin).
  - specialize (Hfail σ1 eq_refl eq_refl). rewrite Forall_forall in Hfail.
    by specialize (Hfail _ Hin).
Qed.

End frames_of_runs.

(** ** Completion by count *)

Section completion_by_count.

Context {id_text : Insertable proton.message_id} {scalar_text : Insertable proton.scalar}.

(** Accept confirmations are counted one by one, and the termination
    routine is called once, by the confirmation that takes [accepted] to
    [messages], and by no other: a handler that holds connection [c0] asks
    for its close once if the count is reached in the run, and not at
    all otherwise. *)
Theorem accepts_stop_once (ts : list proton.tracker) (σ : state) (c0 : proton.connection) :
  INT_MIN ≤ accepted (this σ) →
  accepted (this σ) + Z.of_nat (length ts) ≤ INT_MAX →
  connection (this σ) = Some c0 →
  ∃ σ', run (TrackerAccept <$> ts) σ = Ok () σ' ∧
    accepted (this σ') = accepted (this σ) + Z.of_nat (length ts) ∧
    cout σ' = cout σ ∧
    requests σ' =
      requests σ ++
      (if bool_decide (accepted (this σ) < messages (this σ)
                       ≤ accepted (this σ) + Z.of_nat (length ts))
       then stop_requests (this σ) else []) ∧
    close_requests c0 (requests σ') =
      Nat.add (close_requests c0 (requests σ))
        (if bool_decide (accepted (this σ) < messages (this σ)
                         ≤ accepted (this σ) + Z.of_nat (length ts))
         then 1%nat else 0%nat).
Proof.
  intros Hmin Hmax Hconn. rewrite run_accepts by done.
  eexists. split; [reflexivity|]. simpl. repeat split.
  unfold close_requests. rewrite filter_app, length_app. f_equal.
  case_bool_decide; [|done].
  unfold stop_requests. rewrite Hconn.
  case_bool_decide; simpl; rewrite filter_cons_True by (simpl; by case_bool_decide);
    by rewrite ?filter_cons_False by (by intros []).
Qed.

(** One sendable event in a send run sends as many messages as the credit
    and the room below [messages] allow, none when the credit is not
    positive, and returns. *)
Theorem on_sendable_uses_credit_up_to_the_count (s : proton.sender) (σ : state) :
  operation (this σ) = "send" →
  INT_MIN ≤ sent (this σ) →
  messages (this σ) ≤ INT_MAX →
  ∃ σ', on_sendable s σ = Ok () σ' ∧
    sent (this σ') =
      sent (this σ) + Z.max 0 (Z.min (proton.credit s) (messages (this σ) - sent (this σ))) ∧
    Z.of_nat (length (cout σ')) =
      Z.of_nat (length (cout σ)) +
      Z.max 0 (Z.min (proton.credit s) (messages (this σ) - sent (this σ))) ∧
    Z.of_nat (submitted σ') =
      Z.of_nat (submitted σ) +
      Z.max 0 (Z.min (proton.credit s) (messages (this σ) - sent (this σ))) ∧
    (proton.credit s ≤ 0 → σ' = σ).
Proof.
  intros Hop Hmin Hmax. rewrite on_sendable_run by done.
  rewrite (bool_decide_true _ Hop). eexists. split; [reflexivity|].
  unfold submitted, after_sends. simpl.
  rewrite filter_app, !length_app, sent_requests_all_sends,
    sent_lines_length, sent_requests_length.
  repeat split; try lia.
  intros Hcredit.
  replace (Z.to_nat _) with 0%nat by lia.
  apply (after_sends_0 σ).
Qed.

(** No callback writes a field of the configuration. *)
Theorem configuration_is_never_written (c : proton.container) (evs : list event)
    (σ : state) :
  config (this (final (container_run c evs σ))) = config (this σ) ∧
  ∀ e, config (this (final (dispatch e σ))) = config (this σ).
Proof. split; [apply container_run_keeps_config | intros e; apply dispatch_keeps_config]. Qed.

(** A message as [on_sendable] builds it, delivered to a receiver, is
    reported with the id and the send time it was given, when the engine
    prints a string id as it is and an integer property in decimal. *)
Theorem sent_message_is_reported_with_its_id_and_time
    (d : proton.delivery) (sender : handler) (n stime : Z) (σ : state) :
  (∀ s, inserted (proton.id_string s) = s) →
  (∀ z, inserted (proton.scalar_long z) = to_string z) →
  operation (this σ) = "receive" →
  0 ≤ received (this σ) < messages (this σ) →
  messages (this σ) ≤ INT_MAX →
  cout (final (on_message d (sent_message sender n stime) σ)) =
  cout σ ++ [to_string n +:+ "," +:+ to_string stime +:+ "," +:+
             to_string (clock σ (ticks σ)) +:+ newline].
Proof.
  intros Hid Hscalar Hop Hreceived Hmax.
  rewrite on_message_run by (done || (unfold INT_MIN; lia)). simpl.
  unfold received_line, sent_message, proton.get_property. simpl.
  rewrite lookup_singleton_eq. cbn [default from_option]. unfold Datatypes.id.
  by rewrite Hid, Hscalar.
Qed.

End completion_by_count.

(** ** A message count of zero or less *)

Section without_messages.

Context {id_text : Insertable proton.message_id} {scalar_text : Insertable proton.scalar}.

Lemma dispatch_without_messages (e : event) (σ : state) (n : Z) :
  messages (this σ) ≤ 0 →
  sent (this σ) = 0 →
  0 ≤ received (this σ) ≤ n →
  0 ≤ accepted (this σ) ≤ n →
  (messages (this σ) = 0 → received (this σ) = 0) →
  n < INT_MAX →
  is_timer e = false →
  let σ' := final (dispatch e σ) in
  messages (this σ') = messages (this σ) ∧
  sent (this σ') = 0 ∧
  0 ≤ received (this σ') ≤ n + 1 ∧
  0 ≤ accepted (this σ') ≤ n + 1 ∧
  (messages (this σ) = 0 → received (this σ') = 0) ∧
  filter is_stop_request (requests σ') = filter is_stop_request (requests σ) ∧
  (messages (this σ) = 0 → cout σ' = cout σ).
Proof.
  intros Hcount Hsent Hreceived Haccepted Hzero Hn Htimer.
  destruct e as [c|c|r|s|t|d m|t|[]]; simpl; try discriminate.
  - unfold on_container_start, filler. unfold_monad. simpl.
    repeat (case_bool_decide; simpl); rewrite ?filter_app, ?app_nil_r;
      repeat split; (done || lia).
  - unfold on_connection_open. unfold_monad. simpl.
    repeat (case_bool_decide; simpl); rewrite ?filter_app, ?app_nil_r;
      repeat split; (done || lia).
  - rewrite filter_app, app_nil_r. repeat split; (done || lia).
  - unfold on_sendable. unfold_monad. simpl.
    case_bool_decide; simpl; [|repeat split; (done || lia)].
    rewrite send_loop_exit by lia. simpl. repeat split; (done || lia).
  - unfold on_tracker_accept. unfold_monad. simpl.
    rewrite int_succ_no_overflow by (unfold INT_MIN; lia).
    rewrite bool_decide_false by lia. simpl. repeat split; (done || lia).
  - unfold on_message. unfold_monad. simpl.
    case_bool_decide; simpl; [|repeat split; (done || lia)].
    case_bool_decide; simpl; [repeat split; (done || lia)|].
    rewrite int_succ_no_overflow by (unfold INT_MIN; lia).
    rewrite bool_decide_false by lia. simpl. repeat split; (done || lia).
  - unfold on_transport_error. unfold_monad. simpl.
    case_bool_decide; simpl; repeat split; (done || lia).
Qed.

Lemma run_without_messages (evs : list event) : ∀ (σ : state) (n : Z),
  messages (this σ) ≤ 0 →
  sent (this σ) = 0 →
  0 ≤ received (this σ) ≤ n →
  0 ≤ accepted (this σ) ≤ n →
  (messages (this σ) = 0 → received (this σ) = 0) →
  n + Z.of_nat (length evs) ≤ INT_MAX →
  Forall (λ e, is_timer e = false) evs →
  filter is_stop_request (requests (final (run evs σ))) =
    filter is_stop_request (requests σ) ∧
  (messages (this σ) = 0 → cout (final (run evs σ)) = cout σ).
Proof.
  induction evs as [|e evs IH]; intros σ n Hcount Hsent Hreceived Haccepted Hzero Hn Hevs;
    [done|].
  apply Forall_cons in Hevs as [He Hevs]. simpl length in Hn.
  rewrite run_cons.
  destruct (dispatch_without_messages e σ n) as (Hm & Hs & Hr & Ha & Hz & Hreq & Hout);
    try (done || lia).
  destruct (dispatch e σ) as [[] σ1| |]; simpl in *; [|done..].
  destruct (IH σ1 (n + 1)) as [Hreq' Hout']; try (done || lia).
  split; [by rewrite Hreq'|]. intros Hm0. rewrite Hout' by lia. by apply Hout.
Qed.

Lemma stop_requests_no_send (h : handler) :
  Forall (λ r, is_send r = false) (stop_requests h).
Proof.
  unfold stop_requests. destruct (connection h); case_bool_decide; by repeat constructor.
Qed.

(** Once [sent] has reached [messages], no event submits a message. *)
Lemma run_submits_nothing_when_full (evs : list event) : ∀ σ : state,
  messages (this σ) ≤ sent (this σ) →
  filter is_send (requests (final (run evs σ))) = filter is_send (requests σ).
Proof.
  induction evs as [|e evs IH]; intros σ Hfull; [done|].
  rewrite run_cons.
  assert (Hstep : filter is_send (requests (final (dispatch e σ))) =
                    filter is_send (requests σ) ∧
                  messages (this (final (dispatch e σ))) ≤
                    sent (this (final (dispatch e σ)))).
  { destruct e as [c|c|r|s|t|d m|t|[]]; simpl.
    - unfold on_container_start, filler. unfold_monad. simpl.
      repeat (case_bool_decide; simpl); rewrite ?filter_app, ?app_nil_r; done.
    - unfold on_connection_open. unfold_monad. simpl.
      repeat (case_bool_decide; simpl); rewrite ?filter_app, ?app_nil_r; done.
    - by rewrite filter_app, app_nil_r.
    - unfold on_sendable. unfold_monad. simpl.
      case_bool_decide; simpl; [|done]. by rewrite send_loop_exit by lia.
    - unfold on_tracker_accept. unfold_monad. simpl.
      case_bool_decide; [rewrite stop_run|]; simpl; [|done].
      by rewrite filter_app, (filter_none is_send (stop_requests _)), app_nil_r
        by apply stop_requests_no_send.
    - unfold on_message. unfold_monad. simpl.
      repeat (case_bool_decide; simpl); rewrite ?stop_run; simpl; try done.
      by rewrite filter_app, (filter_none is_send (stop_requests _)), app_nil_r
        by apply stop_requests_no_send.
    - unfold on_transport_error. unfold_monad. simpl. by case_bool_decide.
    - rewrite stop_run. simpl.
      by rewrite filter_app, (filter_none is_send (stop_requests _)), app_nil_r
        by apply stop_requests_no_send. }
  destruct Hstep as [Hfilter Hfull'].
  destruct (dispatch e σ) as [[] σ1| |]; simpl in *; [|done..].
  by rewrite IH.
Qed.

(** With a message count of zero or less the count is never reached:
    whatever events arrive, short of the duration timer, the termination
    routine is not called and no message is submitted; and with a count of
    zero nothing is written, every delivery being dropped. *)
Theorem no_completion_without_messages (evs : list event) (σ : state) :
  messages (this σ) ≤ 0 →
  fresh (this σ) →
  Forall (λ e, is_timer e = false) evs →
  Z.of_nat (length evs) ≤ INT_MAX →
  filter is_stop_request (requests (final (run evs σ))) =
    filter is_stop_request (requests σ) ∧
  submitted (final (run evs σ)) = submitted σ ∧
  (messages (this σ) = 0 → cout (final (run evs σ)) = cout σ).
Proof.
  intros Hcount (Hsent & Hreceived & Haccepted) Hevs Hlen.
  destruct (run_without_messages evs σ 0) as [Hreq Hout]; try (done || lia).
  split; [done|]. split; [|done].
  unfold submitted. by rewrite run_submits_nothing_when_full by lia.
Qed.

End without_messages.

(** ** A whole send run of a client *)

Lemma on_container_start_client (c : proton.container) (σ : state) :
  connection_mode (this σ) = "client" →
  0 ≤ body_size (this σ) →
  on_container_start c σ =
  Ok () (State (with_start_time (clock σ (ticks σ))
                  (with_connection (Some (proton.connect_result c))
                     (with_body (replicate (Z.to_nat (body_size (this σ))) Byte.x78)
                        (this σ))))
               (cout σ)
               (requests σ ++
                  proton.connect (host (this σ) +:+ ":" +:+ port (this σ)) "ANONYMOUS" ::
                  if bool_decide (0 < seconds (this σ))
                  then [proton.schedule (seconds (this σ) * proton.SECOND) proton.call_stop]
                  else [])
               (clock σ) (S (ticks σ))).
Proof.
  intros Hclient Hsize. unfold on_container_start, filler. unfold_monad. simpl.
  rewrite (bool_decide_true _ Hsize). simpl. rewrite Hclient. simpl.
  case_bool_decide; simpl; by rewrite <- ?app_assoc.
Qed.

Lemma sent_requests_closes_none h clk (k : nat) (c0 : proton.connection) : ∀ first t,
  filter (closes c0) (sent_requests h clk k first t) = [].
Proof.
  induction k as [|k IH]; intros first t; simpl; [done|].
  rewrite filter_cons_False by (by intros []). apply IH.
Qed.

Section client_send_run.

Context {id_text : Insertable proton.message_id} {scalar_text : Insertable proton.scalar}.

(** A client in active mode that is offered credit for all its messages
    and then gets one accept confirmation per message: the run returns,
    the output is the lines [1,t] to [messages,t] and nothing else, as
    many messages were submitted, and the last request, made once, is the
    close of the connection made at start-up; the process exits with 0. *)
Theorem client_send_run_closes_after_the_last_accept (h : handler) (clk : nat → Z)
    (c : proton.container) (ss : list proton.sender) (ts : list proton.tracker) :
  connection_mode h = "client" →
  channel_mode h = "active" →
  operation h = "send" →
  fresh h →
  1 ≤ messages h ≤ INT_MAX →
  0 ≤ body_size h →
  messages h ≤ total_credit ss →
  Z.of_nat (length ts) = messages h →
  let evs := ConnectionOpen (proton.connect_result c)
             :: (Sendable <$> ss) ++ (TrackerAccept <$> ts) in
  ∃ σ', container_run c evs (boot h clk) = Ok () σ' ∧
    cout σ' = sent_lines clk (Z.to_nat (messages h)) 1 1 ∧
    submitted σ' = Z.to_nat (messages h) ∧
    last (requests σ') = Some (proton.connection_close (proton.connect_result c)) ∧
    close_requests (proton.connect_result c) (requests σ') = 1%nat ∧
    main_run h clk c evs =
      ProcessEnd (Exit 0) (sent_lines clk (Z.to_nat (messages h)) 1 1) [].
Proof.
  intros Hclient Hactive Hop (Hsent & Hreceived & Haccepted) Hcount Hsize Hcredit Hts evs.
  assert (Hrun : ∃ σ', container_run c evs (boot h clk) = Ok () σ' ∧
            cout σ' = sent_lines clk (Z.to_nat (messages h)) 1 1 ∧
            submitted σ' = Z.to_nat (messages h) ∧
            last (requests σ') =
              Some (proton.connection_close (proton.connect_result c)) ∧
            close_requests (proton.connect_result c) (requests σ') = 1%nat).
  { subst evs. unfold container_run, mbind, M_bind.
    rewrite on_container_start_client by done.
    rewrite run_cons. cbn [dispatch].
    unfold on_connection_open. unfold_monad.
    cbn [this channel_mode operation with_start_time with_connection with_body boot].
    rewrite (bool_decide_true _ Hactive), (bool_decide_true _ Hop).
    cbn [this cout requests clock ticks path with_start_time with_connection with_body boot].
    rewrite run_app.
    rewrite run_sendable by (simpl; unfold INT_MIN; (done || lia)).
    rewrite run_accepts by (simpl; unfold INT_MIN; lia).
    eexists. split; [reflexivity|].
    unfold after_sends.
    cbn [this cout requests clock ticks messages sent accepted connection connection_mode
         with_sent with_start_time with_connection with_body with_accepted boot].
    rewrite Hsent, Haccepted.
    replace (Z.to_nat (Z.min (total_credit ss) (messages h - 0)))
      with (Z.to_nat (messages h)) by lia.
    rewrite (bool_decide_true (0 < messages h ≤ _)) by lia.
    unfold stop_requests.
    cbn [connection connection_mode with_sent with_start_time with_connection with_body].
    rewrite Hclient.
    rewrite (bool_decide_false ("client" = "server")) by discriminate.
    rewrite app_nil_r, !app_nil_l.
    split; [done|]. split; [|split].
    - unfold submitted. cbn [requests].
      rewrite !filter_app, !length_app, sent_requests_all_sends, sent_requests_length.
      case_bool_decide; simpl; lia.
    - cbn [requests]. apply last_snoc.
    - unfold close_requests. cbn [requests].
      rewrite !filter_app, sent_requests_closes_none, !length_app.
      case_bool_decide; simpl;
        rewrite filter_cons_True by (simpl; by rewrite bool_decide_true); done. }
  destruct Hrun as (σ' & Hrun & Hout & Hsub & Hlast & Hclose).
  exists σ'. repeat split; try done.
  unfold main_run. by rewrite Hrun, Hout.
Qed.

End client_send_run.

(** ** An unknown connection mode *)

Section unknown_mode.

Context {id_text : Insertable proton.message_id} {scalar_text : Insertable proton.scalar}.
Variable atoi : string → Z.
Variables PN_VERSION_MAJOR PN_VERSION_MINOR PN_VERSION_POINT : Z.

(** A connection mode that is neither client nor server is fatal at
    start-up: whatever the engine would deliver, nothing is requested from
    it and nothing is written to the output, and the process writes the
    one diagnostic of a bare [std::exception] and exits with 1. *)
Theorem main_rejects_unknown_connection_mode (argv : list string) (h : handler)
    (transaction_arg : string) (clk : nat → Z) (c : proton.container) (evs : list event) :
  length argv ≠ 1%nat →
  argv !! 12%nat = Some transaction_arg →
  atoi transaction_arg ≤ 0 →
  handler_of_argv atoi argv = Some h →
  connection_mode h ≠ "client" →
  connection_mode h ≠ "server" →
  0 ≤ body_size h →
  main atoi PN_VERSION_MAJOR PN_VERSION_MINOR PN_VERSION_POINT argv clk c evs =
    Some (ProcessEnd (Exit 1) [] ["quiver-arrow: error: std::exception" +:+ newline]) ∧
  requests (final (container_run c evs (boot h clk))) = [].
Proof.
  intros Hargc Harg Htransaction Hh Hclient Hserver Hsize.
  assert (Hrun : container_run c evs (boot h clk) =
                 Throw std_exception
                   (State (with_body (replicate (Z.to_nat (body_size h)) Byte.x78) h)
                          [] [] clk 0)).
  { unfold container_run, mbind, M_bind, on_container_start, filler.
    unfold_monad. simpl.
    rewrite (bool_decide_true _ Hsize). simpl.
    by rewrite (bool_decide_false _ Hclient), (bool_decide_false _ Hserver). }
  split; [|by rewrite Hrun].
  unfold main. rewrite (bool_decide_false _ Hargc), Harg. simpl.
  rewrite bool_decide_false by lia. rewrite Hh. simpl.
  unfold main_run. by rewrite Hrun.
Qed.

End unknown_mode.

(** ** The further properties on examples *)

Lemma main_rejects_unknown_connection_mode_witness :
  let argv := ["arrow"; "peer"; "active"; "send"; "id"; "localhost"; "5672"; "q";
               "0"; "2"; "3"; "10"; "0"; ""] in
  main (id_text := sample_id_text) (scalar_text := sample_scalar_text)
    sample_atoi 0 39 0 argv (λ _, 0)
    (proton.Container (proton.Connection 1) (proton.Listener 2)) []
  = Some (ProcessEnd (Exit 1) [] ["quiver-arrow: error: std::exception" +:+ newline]).
Proof.
  intros argv.
  destruct (handler_of_argv sample_atoi argv) as [h|] eqn:Hh; [|discriminate].
  refine (proj1 (main_rejects_unknown_connection_mode
                   (id_text := sample_id_text) (scalar_text := sample_scalar_text)
                   sample_atoi 0 39 0 argv h "0" (λ _, 0)
                   (proton.Container (proton.Connection 1) (proton.Listener 2)) []
                   _ _ _ Hh _ _ _)).
  - discriminate.
  - reflexivity.
  - vm_compute. discriminate.
  - injection Hh as <-. discriminate.
  - injection Hh as <-. discriminate.
  - injection Hh as <-. vm_compute. discriminate.
Defined.

Lemma deliveries_are_reported_up_to_the_count_witness :
  let σ := boot (new_handler "client" "active" "receive" "arrow" "localhost" "5672" "q"
                             0 2 1 10 false) (λ n, 100 + Z.of_nat n) in
  let m (n : Z) := proton.Message [] (proton.id_string (to_string n))
                     {[ "SendTime" := proton.scalar_long (90 + n) ]} false in
  let dms := [(proton.Delivery 1, m 1); (proton.Delivery 2, m 2); (proton.Delivery 3, m 3)] in
  cout (final (run (id_text := sample_id_text) (scalar_text := sample_scalar_text)
                 (delivered <$> dms) σ))
  = ["1,91,100" +:+ newline; "2,92,101" +:+ newline].
Proof.
  intros σ m dms.
  rewrite (deliveries_are_reported_up_to_the_count
             (id_text := sample_id_text) (scalar_text := sample_scalar_text) dms σ).
  - reflexivity.
  - reflexivity.
  - simpl. lia.
  - unfold INT_MAX. simpl. lia.
Defined.

Lemma accepts_stop_once_witness :
  let h := with_connection (Some (proton.Connection 1))
             (new_handler "client" "active" "send" "arrow" "localhost" "5672" "q"
                          0 2 1 10 false) in
  let ts := [proton.Tracker 1; proton.Tracker 2; proton.Tracker 3] in
  ∃ σ', run (id_text := sample_id_text) (scalar_text := sample_scalar_text)
            (TrackerAccept <$> ts) (boot h (λ _, 0)) = Ok () σ' ∧
        close_requests (proton.Connection 1) (requests σ') = 1%nat.
Proof.
  intros h ts.
  destruct (accepts_stop_once (id_text := sample_id_text) (scalar_text := sample_scalar_text)
              ts (boot h (λ _, 0)) (proton.Connection 1))
    as (σ' & Hrun & _ & _ & _ & Hclose).
  - unfold INT_MIN. simpl. lia.
  - unfold INT_MAX. simpl. lia.
  - reflexivity.
  - exists σ'. split; [exact Hrun|]. rewrite Hclose. reflexivity.
Defined.

Lemma on_sendable_uses_credit_up_to_the_count_witness :
  let σ := boot (new_handler "client" "active" "send" "arrow" "localhost" "5672" "q"
                             0 5 1 10 false) (λ _, 0) in
  ∃ σ', on_sendable (proton.Sender 3) σ = Ok () σ' ∧ sent (this σ') = 3.
Proof.
  intros σ.
  destruct (on_sendable_uses_credit_up_to_the_count (proton.Sender 3) σ)
    as (σ' & Hrun & Hsent & _).
  - reflexivity.
  - unfold INT_MIN. simpl. lia.
  - unfold INT_MAX. simpl. lia.
  - exists σ'. split; [exact Hrun|]. rewrite Hsent. reflexivity.
Defined.

Lemma sent_message_is_reported_with_its_id_and_time_witness :
  let receiver := boot (new_handler "server" "passive" "receive" "arrow" "localhost" "5672" "q"
                                    0 5 1 10 false) (λ _, 2000) in
  let sender := new_handler "client" "active" "send" "arrow" "localhost" "5672" "q"
                            0 5 1 10 true in
  cout (final (on_message (id_text := sample_id_text) (scalar_text := sample_scalar_text)
                 (proton.Delivery 1) (sent_message sender 1 1999) receiver))
  = ["1,1999,2000" +:+ newline].
Proof.
  intros receiver sender.
  apply (sent_message_is_reported_with_its_id_and_time
           (id_text := sample_id_text) (scalar_text := sample_scalar_text)
           (proton.Delivery 1) sender 1 1999 receiver).
  - reflexivity.
  - reflexivity.
  - reflexivity.
  - simpl. lia.
  - unfold INT_MAX. simpl. lia.
Defined.

Lemma active_server_never_closes_a_connection_witness :
  let h := new_handler "server" "active" "receive" "arrow" "localhost" "5672" "q"
                       0 1 1 10 false in
  let m := proton.Message [] (proton.id_string "1") ∅ false in
  let evs := [ContainerStart (proton.Container (proton.Connection 1) (proton.Listener 2));
              ConnectionOpen (proton.Connection 3);
              MessageDelivered (proton.Delivery 1) m;
              TimerFired proton.call_stop] in
  filter is_close (requests (final (run (id_text := sample_id_text)
                                       (scalar_text := sample_scalar_text)
                                       evs (boot h (λ _, 0))))) = [].
Proof.
  intros h m evs.
  apply (active_server_never_closes_a_connection
           (id_text := sample_id_text) (scalar_text := sample_scalar_text)
           evs (boot h (λ _, 0))).
  - reflexivity.
  - discriminate.
  - reflexivity.
Defined.

Lemma submitted_messages_carry_the_filler_witness :
  let h := new_handler "client" "active" "send" "arrow" "localhost" "5672" "q"
                       0 1 3 10 true in
  let c := proton.Container (proton.Connection 1) (proton.Listener 2) in
  let m := sent_message (with_body [Byte.x78; Byte.x78; Byte.x78] h) 1 1 in
  proton.msg_body m = [Byte.x78; Byte.x78; Byte.x78] ∧
  length (proton.msg_body m) = 3%nat ∧
  proton.msg_durable m = true.
Proof.
  intros h c m.
  apply (submitted_messages_carry_the_filler
           (id_text := sample_id_text) (scalar_text := sample_scalar_text)
           h (λ n, Z.of_nat n) c [Sendable (proton.Sender 1)] m).
  - repeat constructor.
  - vm_compute. apply list_elem_of_In. right. left. reflexivity.
Defined.

Lemma no_completion_without_messages_witness :
  let h := new_handler "client" "active" "receive" "arrow" "localhost" "5672" "q"
                       0 0 1 10 false in
  let m := proton.Message [] (proton.id_string "1") ∅ false in
  let evs := [MessageDelivered (proton.Delivery 1) m; TrackerAccept (proton.Tracker 1)] in
  filter is_stop_request
    (requests (final (run (id_text := sample_id_text) (scalar_text := sample_scalar_text)
                        evs (boot h (λ _, 0))))) = [] ∧
  cout (final (run (id_text := sample_id_text) (scalar_text := sample_scalar_text)
                 evs (boot h (λ _, 0)))) = [].
Proof.
  intros h m evs.
  destruct (no_completion_without_messages
              (id_text := sample_id_text) (scalar_text := sample_scalar_text)
              evs (boot h (λ _, 0))) as (Hstop & _ & Hout).
  - simpl. lia.
  - repeat split.
  - repeat constructor.
  - unfold INT_MAX. simpl. lia.
  - split; [exact Hstop | apply Hout; reflexivity].
Defined.

Lemma client_send_run_closes_after_the_last_accept_witness :
  let h := new_handler "client" "active" "send" "arrow" "localhost" "5672" "q"
                       0 3 1 1 false in
  let c := proton.Container (proton.Connection 1) (proton.Listener 2) in
  let ss := [proton.Sender 1; proton.Sender 1; proton.Sender 1] in
  let ts := [proton.Tracker 1; proton.Tracker 2; proton.Tracker 3] in
  main_run (id_text := sample_id_text) (scalar_text := sample_scalar_text)
    h (λ n, 1000 + Z.of_nat n) c
    (ConnectionOpen (proton.connect_result c) :: (Sendable <$> ss) ++ (TrackerAccept <$> ts))
  = ProcessEnd (Exit 0)
      ["1,1001" +:+ newline; "2,1002" +:+ newline; "3,1003" +:+ newline] [].
Proof.
  intros h c ss ts.
  destruct (client_send_run_closes_after_the_last_accept
              (id_text := sample_id_text) (scalar_text := sample_scalar_text)
              h (λ n, 1000 + Z.of_nat n) c ss ts)
    as (σ' & _ & _ & _ & _ & _ & Hmain).
  - reflexivity.
  - reflexivity.
  - reflexivity.
  - repeat split.
  - unfold INT_MAX. simpl. lia.
  - simpl. lia.
  - simpl. lia.
  - reflexivity.
  - exact Hmain.
Defined.

(** ** The duration timer *)

Lemma due_timers (elapsed : Z) (cs : list proton.command) :
  omap (due elapsed) cs = omap (due elapsed) (timers cs).
Proof.
  unfold timers. induction cs as [|c cs IH]; [done|].
  destruct c as [| |delay w| | | | | | |];
    rewrite ?filter_cons_True by done; rewrite ?filter_cons_False by (by intros []);
    cbn [omap list_omap due]; rewrite ?IH; done.
Qed.

Section duration_timer.

Context {id_text : Insertable proton.message_id} {scalar_text : Insertable proton.scalar}.

(** Nothing but start-up schedules a timer. *)
Lemma dispatch_keeps_timers (e : event) (σ : state) :
  is_start e = false →
  timers (requests (final (dispatch e σ))) = timers (requests σ).
Proof.
  assert (Hstop : ∀ h, timers (stop_requests h) = []).
  { intros h. unfold stop_requests. destruct (connection h); by case_bool_decide. }
  intros Hstart. destruct e as [c|c|r|s|t|d m|t|[]]; simpl; try discriminate.
  - unfold on_connection_open. unfold_monad. simpl.
    repeat (case_bool_decide; simpl); rewrite ?timers_app, ?app_nil_r; done.
  - by rewrite timers_app, app_nil_r.
  - unfold on_sendable. unfold_monad. simpl.
    case_bool_decide; simpl; [|done].
    destruct (send_loop_frame (Z.to_nat (proton.credit s)) s σ)
      as (σ' & new & Hrun & _ & Hreq & Hnew).
    rewrite Hrun. simpl. rewrite Hreq, timers_app.
    unfold timers at 2. rewrite (filter_none is_schedule new), app_nil_r; [done|].
    eapply Forall_impl; [exact Hnew|]. intros r [Hsend _]. by destruct r.
  - unfold on_tracker_accept. unfold_monad. simpl.
    case_bool_decide; [rewrite stop_run|]; simpl; [|done].
    by rewrite timers_app, Hstop, app_nil_r.
  - unfold on_message. unfold_monad. simpl.
    repeat (case_bool_decide; simpl); rewrite ?stop_run; simpl; try done.
    by rewrite timers_app, Hstop, app_nil_r.
  - unfold on_transport_error. unfold_monad. simpl. by case_bool_decide.
  - rewrite stop_run. simpl. by rewrite timers_app, Hstop, app_nil_r.
Qed.

Lemma run_keeps_timers (evs : list event) : ∀ σ : state,
  Forall (λ e, is_start e = false) evs →
  timers (requests (final (run evs σ))) = timers (requests σ).
Proof.
  induction evs as [|e evs IH]; intros σ Hevs; [done|].
  apply Forall_cons in Hevs as [He Hevs]. rewrite run_cons.
  pose proof (dispatch_keeps_timers e σ He) as Hstep.
  destruct (dispatch e σ) as [[] σ1| |]; simpl in *; [|done..].
  by rewrite IH.
Qed.

(** C9: start-up with a connection mode of client or server returns, and
    schedules exactly one timer, [seconds] seconds ahead and with the
    termination routine as its work, when [seconds > 0], and no timer
    otherwise; no later event schedules another.  In a run that is still
    going when that delay has elapsed, whatever events came before and
    whatever the counters are, the engine's firing of the timer runs the
    termination routine, once; without a timer, or before the delay has
    elapsed, nothing is run. *)
Theorem duration_timer_runs_the_termination_routine (h : handler) (clk : nat → Z)
    (c : proton.container) :
  connection_mode h = "client" ∨ connection_mode h = "server" →
  0 ≤ body_size h →
  ∃ σs, on_container_start c (boot h clk) = Ok () σs ∧
    timers (requests σs) =
      (if bool_decide (0 < seconds h)
       then [proton.schedule (seconds h * proton.SECOND) proton.call_stop]
       else []) ∧
    ∀ (evs : list event) (σ1 : state) (elapsed : Z),
      Forall (λ e, is_start e = false) evs →
      run evs σs = Ok () σ1 →
      timers (requests σ1) = timers (requests σs) ∧
      (0 < seconds h → seconds h * proton.SECOND ≤ elapsed →
         timed_run c evs elapsed (boot h clk) = stop σ1 ∧
         ∃ σ2, timed_run c evs elapsed (boot h clk) = Ok () σ2 ∧ stopped_from σ1 σ2) ∧
      (seconds h ≤ 0 ∨ elapsed < seconds h * proton.SECOND →
         timed_run c evs elapsed (boot h clk) = Ok () σ1).
Proof.
  intros Hmode Hsize.
  destruct (on_container_start_timers c (boot h clk) Hmode Hsize) as (σs & Hstart & Htimers).
  exists σs. split; [done|]. split; [done|].
  intros evs σ1 elapsed Hevs Hrun.
  pose proof (run_keeps_timers evs σs Hevs) as Hkeep.
  rewrite Hrun in Hkeep. cbn [final] in Hkeep.
  split; [done|].
  assert (Htimed : timed_run c evs elapsed (boot h clk) = fire_timers elapsed σ1).
  { unfold timed_run, container_run, mbind, M_bind. by rewrite Hstart, Hrun. }
  rewrite Htimed. unfold fire_timers.
  rewrite due_timers, Hkeep, Htimers. simpl.
  split.
  - intros Hseconds Hdue.
    rewrite (bool_decide_true _ Hseconds). simpl.
    rewrite (bool_decide_true _ Hdue). simpl.
    unfold mbind, M_bind. rewrite stop_run. simpl.
    split; [done|]. eexists. split; [reflexivity|]. done.
  - intros Hnone.
    destruct (decide (0 < seconds h)) as [Hseconds|Hseconds].
    + rewrite (bool_decide_true _ Hseconds). simpl.
      rewrite bool_decide_false by lia. reflexivity.
    + rewrite (bool_decide_false _ Hseconds). reflexivity.
Qed.

End duration_timer.

Lemma duration_timer_runs_the_termination_routine_witness :
  let c := proton.Container (proton.Connection 1) (proton.Listener 2) in
  let h := new_handler "client" "active" "send" "arrow" "localhost" "5672" "q"
                       1 1000000 100 10 false in
  let evs := [ConnectionOpen (proton.Connection 1); Sendable (proton.Sender 2)] in
  ∃ σs, on_container_start c (boot h (λ _, 0)) = Ok () σs ∧
        timers (requests σs) = [proton.schedule 1000 proton.call_stop] ∧
        ∃ σ2, timed_run (id_text := sample_id_text) (scalar_text := sample_scalar_text)
                c evs 1000 (boot h (λ _, 0)) = Ok () σ2 ∧
              sent (this σ2) = 2 ∧
              last (requests σ2) = Some (proton.connection_close (proton.Connection 1)).
Proof.
  intros c h evs.
  destruct (duration_timer_runs_the_termination_routine
              (id_text := sample_id_text) (scalar_text := sample_scalar_text)
              h (λ _, 0) c)
    as (σs & Hstart & Htimers & Hruns).
  - left. reflexivity.
  - simpl. lia.
  - exists σs. split; [exact Hstart|]. split; [exact Htimers|].
    injection Hstart as <-.
    match type of Hruns with
    | ∀ evs σ1 elapsed, _ → run evs ?σs = _ → _ =>
      assert (Hrun : run (id_text := sample_id_text) (scalar_text := sample_scalar_text)
                       evs σs
                     = Ok () (final (run (id_text := sample_id_text)
                                       (scalar_text := sample_scalar_text) evs σs)))
        by (vm_compute; reflexivity);
      destruct (Hruns evs _ 1000 ltac:(repeat constructor) Hrun) as (_ & Hfire & _)
    end.
    destruct Hfire as [_ (σ2 & Htimed & Hstopped)];
      [vm_compute; reflexivity | vm_compute; discriminate |].
    exists σ2. split; [exact Htimed|]. rewrite Hstopped.
    split; vm_compute; reflexivity.
Defined.
